(** * AxShell agent backend: the agent registry, the task queue and command
    execution of [backend/main.go], embedded as state-passing functions.

    The manager of the Go program is one mutable object.  Here it is a record
    [AgentManager] that every operation takes and returns.  What the Go code
    reaches through pointers is kept behind addresses: the registry maps an id
    to the address of an [Agent] record, and the queue is a slice header over
    a backing array, so that two holders of one pointer or one slice see each
    other's writes.  Everything that leaves the process (a database statement,
    a message to the observers, a subprocess, a line in a log file) is
    recorded in a trace. *)

From Stdlib Require Import ZArith String.
From stdpp Require Import gmap strings list pretty.

Local Open Scope Z_scope.

(** ** Machine integers

    Go's [int] is 64 bits wide here; arithmetic wraps around. *)

Definition int_min : Z := - 2 ^ 63.
Definition int_max : Z := 2 ^ 63 - 1.
Definition int_wrap (z : Z) : Z := (z + 2 ^ 63) mod 2 ^ 64 - 2 ^ 63.
Definition int_range (z : Z) : Prop := int_min ≤ z ≤ int_max.
Arguments int_wrap : simpl never.

(** ** Strings *)

(** [strings.HasPrefix] and [strings.TrimPrefix]. *)
Definition HasPrefix (s p : string) : bool := String.prefix p s.
Definition TrimPrefix (s p : string) : string :=
  if HasPrefix s p
  then String.substring (String.length p) (String.length s - String.length p) s
  else s.

Arguments HasPrefix : simpl never.
Arguments TrimPrefix : simpl never.

(** [fmt.Sprintf("%d", i)]. *)
Definition Sprintf_d (i : Z) : string := pretty i.
Arguments Sprintf_d : simpl never.

(** ** Data model *)

(** A [time.Time], as nanoseconds since the epoch. *)
Definition Time := Z.
(** A [float64], as its bit pattern; [0] is [+0.0], the zero value. *)
Definition float64 := Z.

Module Agent.
Record t := mk {
  ID : Z;
  Name : string;
  Status : string;
  CurrentTask : string;
  StartTime : Time;
  LastExecute : Time;
  MemoryUsage : float64;
  CPUUsage : float64;
  NetworkUsage : float64;
  TasksDone : Z;
  TasksFailed : Z
}.
(** The zero value of the struct. *)
Definition zero : t := mk 0 "" "" "" 0 0 0 0 0 0 0.
(** The writes of [ExecuteCommand] before the command runs:
    [Status], [CurrentTask] and [LastExecute]. *)
Definition start (task : string) (at_ : Time) (a : t) : t :=
  mk (ID a) (Name a) "running" task (StartTime a) at_ (MemoryUsage a)
     (CPUUsage a) (NetworkUsage a) (TasksDone a) (TasksFailed a).
Definition set_idle (a : t) : t :=
  mk (ID a) (Name a) "idle" "" (StartTime a) (LastExecute a) (MemoryUsage a)
     (CPUUsage a) (NetworkUsage a) (TasksDone a) (TasksFailed a).
Definition set_TasksDone (v : Z) (a : t) : t :=
  mk (ID a) (Name a) (Status a) (CurrentTask a) (StartTime a) (LastExecute a)
     (MemoryUsage a) (CPUUsage a) (NetworkUsage a) v (TasksFailed a).
Definition set_TasksFailed (v : Z) (a : t) : t :=
  mk (ID a) (Name a) (Status a) (CurrentTask a) (StartTime a) (LastExecute a)
     (MemoryUsage a) (CPUUsage a) (NetworkUsage a) (TasksDone a) v.
End Agent.

Module QueueItem.
Record t := mk {
  ID : Z;
  Index : Z;
  Command : string;
  Status : string;
  Output : string;
  AgentID : Z;
  Priority : Z;
  BatchID : string;
  CreatedAt : string
}.
(** The zero value of the struct. *)
Definition zero : t := mk 0 0 "" "" "" 0 0 "" "".
Definition set_ID (v : Z) (q : t) : t :=
  mk v (Index q) (Command q) (Status q) (Output q) (AgentID q) (Priority q)
     (BatchID q) (CreatedAt q).
Definition set_Status (v : string) (q : t) : t :=
  mk (ID q) (Index q) (Command q) v (Output q) (AgentID q) (Priority q)
     (BatchID q) (CreatedAt q).
Definition set_Output (v : string) (q : t) : t :=
  mk (ID q) (Index q) (Command q) (Status q) v (AgentID q) (Priority q)
     (BatchID q) (CreatedAt q).
Definition set_AgentID (v : Z) (q : t) : t :=
  mk (ID q) (Index q) (Command q) (Status q) (Output q) v (Priority q)
     (BatchID q) (CreatedAt q).
End QueueItem.

Module CommandResult.
Record t := mk {
  AgentID : Z;
  Command : string;
  Output : string;
  Error : string;
  ExitCode : Z;
  Duration : Z;
  Timestamp : string
}.
End CommandResult.

Module LogEntry.
Record t := mk {
  AgentID : Z;
  Level : string;
  Message : string;
  Command : string;
  Output : string;
  ExitCode : Z;
  Duration : Z
}.
End LogEntry.

(** The payload of a [Message].  [WriteJSON] serialises the payload while
    [broadcastMessage] runs, so the trace keeps the value the payload had at
    that moment. *)
Inductive Payload :=
  | PAgent (a : option Agent.t)
  | PQueue (q : list QueueItem.t)
  | PResult (r : CommandResult.t)
  | PId (id : Z)
  | PReason (reason : string)
  | PNil.

Module Message.
Record t := mk { Type_ : string; Payload_ : Payload }.
End Message.

(** What the manager does to the world outside its own memory.  The database
    statements are recorded only when a database is connected. *)
Inductive Effect :=
  | SaveAgent (a : Agent.t)
  | DeleteAgent (id : Z)
  | SaveQueueItem (q : QueueItem.t)
  | UpdateQueueItem (q : QueueItem.t)
  | DeleteQueueItem (id : Z)
  | SaveLog (e : LogEntry.t)
  | Broadcast (m : Message.t)
  | Spawn (argv : list string)
  | LogFile (r : CommandResult.t).

(** How [cmd.CombinedOutput()] ends: no error, an [*exec.ExitError] with its
    exit code, or another error (the shell could not be started). *)
Inductive proc_error :=
  | NoError
  | ExitError (msg : string) (code : Z)
  | OtherError (msg : string).

Record ProcResult := { p_output : string; p_err : proc_error }.

(** The environment of the process.  Each answer may depend on everything the
    manager has done so far. *)
Record Env := {
  windows : bool;
  timeNow : nat → Time;
  formatRFC3339 : Time → string;
  CombinedOutput : list Effect → list string → ProcResult;
  insertQueueRow : list Effect → QueueItem.t → Z;
  growslice : nat → nat → nat
}.

(** ** Slices and pointers

    A slice of queue items is a header over a backing array.  The manager's
    queue always starts at the first cell of its array, so the header keeps an
    address and a length; the capacity is the length of the array. *)
Record slice := { s_ptr : nat; s_len : nat }.

(** A [*QueueItem] into a backing array. *)
Record item_ptr := { p_arr : nat; p_idx : nat }.

(** ** The manager

    The fields of the Go struct that carry its state: the registry and the
    agent records its pointers refer to, the queue and the backing arrays,
    the maximum and the two flags.  [db] says whether [am.db] is not nil.
    [clock] counts the readings of [time.Now()] so far.  The locks, the
    table of connected observers and the settings that no operation below
    reads ([logDir], [apiKey], [stealthMode], [batchSize]) are left out. *)
Record AgentManager := {
  agents : gmap Z nat;
  agent_heap : gmap nat Agent.t;
  queue : slice;
  arrays : gmap nat (list QueueItem.t);
  maxAgents : Z;
  running : bool;
  terminated : bool;
  db : bool;
  clock : nat;
  trace : list Effect
}.

(** The result of a function that contains an unbounded loop. *)
Inductive outcome (A : Type) :=
  | Done (a : A)
  | OutOfFuel.
Arguments Done {A} a.
Arguments OutOfFuel {A}.

(** Field updates of the manager. *)
Definition set_agents (v : gmap Z nat) (am : AgentManager) : AgentManager :=
  {| agents := v; agent_heap := agent_heap am; queue := queue am;
     arrays := arrays am; maxAgents := maxAgents am; running := running am;
     terminated := terminated am; db := db am; clock := clock am;
     trace := trace am |}.
Definition set_agent_heap (v : gmap nat Agent.t) (am : AgentManager) : AgentManager :=
  {| agents := agents am; agent_heap := v; queue := queue am;
     arrays := arrays am; maxAgents := maxAgents am; running := running am;
     terminated := terminated am; db := db am; clock := clock am;
     trace := trace am |}.
Definition set_queue (v : slice) (am : AgentManager) : AgentManager :=
  {| agents := agents am; agent_heap := agent_heap am; queue := v;
     arrays := arrays am; maxAgents := maxAgents am; running := running am;
     terminated := terminated am; db := db am; clock := clock am;
     trace := trace am |}.
Definition set_arrays (v : gmap nat (list QueueItem.t)) (am : AgentManager) : AgentManager :=
  {| agents := agents am; agent_heap := agent_heap am; queue := queue am;
     arrays := v; maxAgents := maxAgents am; running := running am;
     terminated := terminated am; db := db am; clock := clock am;
     trace := trace am |}.
Definition set_running (v : bool) (am : AgentManager) : AgentManager :=
  {| agents := agents am; agent_heap := agent_heap am; queue := queue am;
     arrays := arrays am; maxAgents := maxAgents am; running := v;
     terminated := terminated am; db := db am; clock := clock am;
     trace := trace am |}.
Definition set_terminated (v : bool) (am : AgentManager) : AgentManager :=
  {| agents := agents am; agent_heap := agent_heap am; queue := queue am;
     arrays := arrays am; maxAgents := maxAgents am; running := running am;
     terminated := v; db := db am; clock := clock am; trace := trace am |}.
Definition set_clock (v : nat) (am : AgentManager) : AgentManager :=
  {| agents := agents am; agent_heap := agent_heap am; queue := queue am;
     arrays := arrays am; maxAgents := maxAgents am; running := running am;
     terminated := terminated am; db := db am; clock := v; trace := trace am |}.
Definition set_trace (v : list Effect) (am : AgentManager) : AgentManager :=
  {| agents := agents am; agent_heap := agent_heap am; queue := queue am;
     arrays := arrays am; maxAgents := maxAgents am; running := running am;
     terminated := terminated am; db := db am; clock := clock am; trace := v |}.

(** The trace is kept newest first. *)
Definition emit (e : Effect) (am : AgentManager) : AgentManager :=
  set_trace (e :: trace am) am.

(** [NewAgentManager]: an empty registry and queue, at most ten agents.
    [connected] says whether [initDatabase] got a connection; the database is
    taken to be empty, so that [loadStateFromDB] loads nothing. *)
Definition NewAgentManager (connected : bool) : AgentManager :=
  {| agents := ∅; agent_heap := ∅; queue := {| s_ptr := 0; s_len := 0 |};
     arrays := ∅; maxAgents := 10; running := true; terminated := false;
     db := connected; clock := 0; trace := [] |}.

(** The cells of a slice, read through the arrays as they are now. *)
Definition backing (arrs : gmap nat (list QueueItem.t)) (s : slice) : list QueueItem.t :=
  default [] (arrs !! s_ptr s).
Definition read_slice (arrs : gmap nat (list QueueItem.t)) (s : slice) : list QueueItem.t :=
  take (s_len s) (backing arrs s).
Definition queue_items (am : AgentManager) : list QueueItem.t :=
  read_slice (arrays am) (queue am).

(** Reading and writing through a [*QueueItem]. *)
Definition load_item (arrs : gmap nat (list QueueItem.t)) (p : item_ptr) : option QueueItem.t :=
  arrs !! p_arr p ≫= λ a, a !! p_idx p.
Definition store_item (p : item_ptr) (f : QueueItem.t → QueueItem.t) (am : AgentManager) : AgentManager :=
  set_arrays (alter (alter f (p_idx p)) (p_arr p) (arrays am)) am.

(** Reading and writing through an [*Agent]. *)
Definition load_agent (am : AgentManager) (p : nat) : option Agent.t :=
  agent_heap am !! p.
Definition store_agent (p : nat) (f : Agent.t → Agent.t) (am : AgentManager) : AgentManager :=
  set_agent_heap (alter f p (agent_heap am)) am.

(** [validateCommand]. *)
Definition validateCommand (command : string) : string * bool :=
  if HasPrefix command "RUN "
  then (TrimPrefix command "RUN ", true)
  else ("", false).

(** The scan of [GetNextQueueItem].  [best] stands for the pair of
    [bestItem] and [bestIdx]: [None] is the nil pointer with index -1. *)
Fixpoint scan_best (items : list QueueItem.t) (i : nat)
    (best : option nat) (bestPriority : Z) : option nat :=
  match items with
  | [] => best
  | item :: rest =>
      if String.eqb (QueueItem.Status item) "pending"
         && (bestPriority <? QueueItem.Priority item)
      then scan_best rest (S i) (Some i) (QueueItem.Priority item)
      else scan_best rest (S i) best bestPriority
  end.

(** The first position of the queue whose item has the given index, as the
    loops of [RemoveFromQueue] and [CompleteQueueItem] find it. *)
Fixpoint find_index (index : Z) (items : list QueueItem.t) (i : nat) : option (nat * QueueItem.t) :=
  match items with
  | [] => None
  | item :: rest =>
      if QueueItem.Index item =? index then Some (i, item)
      else find_index index rest (S i)
  end.

(** The search for an unused id in [AddAgent]: [for { if !exists break; id++ }]. *)
Fixpoint free_id (fuel : nat) (id : Z) (m : gmap Z nat) : option Z :=
  match fuel with
  | O => None
  | S fuel' =>
      match m !! id with
      | None => Some id
      | Some _ => free_id fuel' (int_wrap (id + 1)) m
      end
  end.

(** ** The operations of the manager *)

Section Manager.
Context (E : Env).

(** [time.Now()]: the next reading of the clock. *)
Definition now (am : AgentManager) : Time * AgentManager :=
  (timeNow E (clock am), set_clock (S (clock am)) am).

(** *** Persistence: every function returns at once when [am.db == nil]. *)
Definition saveAgentToDB (agent : Agent.t) (am : AgentManager) : AgentManager :=
  if db am then emit (SaveAgent agent) am else am.
Definition deleteAgentFromDB (id : Z) (am : AgentManager) : AgentManager :=
  if db am then emit (DeleteAgent id) am else am.
Definition saveQueueItemToDB (item : QueueItem.t) (am : AgentManager) : Z * AgentManager :=
  if db am
  then (insertQueueRow E (trace am) item, emit (SaveQueueItem item) am)
  else (0, am).
Definition updateQueueItemInDB (item : QueueItem.t) (am : AgentManager) : AgentManager :=
  if db am then emit (UpdateQueueItem item) am else am.
Definition deleteQueueItemFromDB (id : Z) (am : AgentManager) : AgentManager :=
  if db am then emit (DeleteQueueItem id) am else am.
Definition saveLogToDB (entry : LogEntry.t) (am : AgentManager) : AgentManager :=
  if db am then emit (SaveLog entry) am else am.

Definition broadcastMessage (msg : Message.t) (am : AgentManager) : AgentManager :=
  emit (Broadcast msg) am.

(** [logResultToFile]; the name of the file reads the clock once. *)
Definition logResultToFile (result : CommandResult.t) (am : AgentManager) : AgentManager :=
  let '(_, am) := now am in
  emit (LogFile result) am.

(** *** The registry *)

Definition AddAgent (fuel : nat) (name : string) (am : AgentManager)
    : outcome (option nat * AgentManager) :=
  if maxAgents am <=? Z.of_nat (size (agents am)) then Done (None, am)
  else
    match free_id fuel 1 (agents am) with
    | None => OutOfFuel
    | Some id =>
        let '(t1, am1) := now am in
        let '(t2, am2) := now am1 in
        let agent := Agent.mk id name "idle" "" t1 t2 0 0 0 0 0 in
        let p := fresh (dom (agent_heap am2)) in
        let am3 := set_agents (<[id := p]> (agents am2))
                     (set_agent_heap (<[p := agent]> (agent_heap am2)) am2) in
        let am4 := saveAgentToDB agent am3 in
        let am5 := broadcastMessage (Message.mk "agent_added" (PAgent (Some agent))) am4 in
        let am6 := saveLogToDB
                     (LogEntry.mk id "info" ("Agent '" +:+ name +:+ "' created") "" "" 0 0)
                     am5 in
        Done (Some p, am6)
    end.

Definition RemoveAgent (id : Z) (am : AgentManager) : bool * AgentManager :=
  match agents am !! id with
  | Some p =>
      let name := from_option Agent.Name "" (load_agent am p) in
      let am1 := saveLogToDB
                   (LogEntry.mk id "info" ("Agent '" +:+ name +:+ "' removed") "" "" 0 0)
                   am in
      let am2 := set_agents (delete id (agents am1)) am1 in
      let am3 := deleteAgentFromDB id am2 in
      let am4 := broadcastMessage (Message.mk "agent_removed" (PId id)) am3 in
      (true, am4)
  | None => (false, am)
  end.


(** *** The queue *)

(** [am.queue = append(am.queue, item)]: in place while the array has room,
    into a new and larger array otherwise. *)
Definition append_item (item : QueueItem.t) (am : AgentManager) : AgentManager :=
  let s := queue am in
  let a := backing (arrays am) s in
  let n := s_len s in
  if (n <? length a)%nat
  then set_queue {| s_ptr := s_ptr s; s_len := S n |}
         (set_arrays (<[s_ptr s := <[n := item]> a]> (arrays am)) am)
  else
    let p := fresh (dom (arrays am)) in
    let c := (S n `max` growslice E (length a) (S n))%nat in
    set_queue {| s_ptr := p; s_len := S n |}
      (set_arrays
         (<[p := take n a ++ item :: replicate (c - S n) QueueItem.zero]> (arrays am))
         am).

(** One turn of the loop of [AddToQueue]. *)
Definition AddToQueue_step (commands : gmap string string) (batchID : string)
    (baseIndex : Z) (am : AgentManager) (i : nat) : AgentManager :=
  match commands !! Sprintf_d (Z.of_nat i) with
  | Some cmd =>
      let item := QueueItem.mk 0 (int_wrap (baseIndex + Z.of_nat i)) cmd "pending"
                    "" 0 0 batchID "" in
      let '(id, am1) := saveQueueItemToDB item am in
      append_item (QueueItem.set_ID id item) am1
  | None => am
  end.

Definition AddToQueue (commands : gmap string string) (am : AgentManager) : AgentManager :=
  let '(t, am0) := now am in
  let batchID := "batch_" +:+ Sprintf_d t in
  let baseIndex := Z.of_nat (s_len (queue am0)) in
  let am1 := foldl (AddToQueue_step commands batchID baseIndex) am0
               (seq 1 (size commands)) in
  let am2 := broadcastMessage (Message.mk "queue_updated" (PQueue (queue_items am1))) am1 in
  saveLogToDB
    (LogEntry.mk 0 "info"
       ("Added " +:+ Sprintf_d (Z.of_nat (size commands))
          +:+ " commands to queue (batch: " +:+ batchID +:+ ")")
       "" "" 0 0)
    am2.

Definition AddToQueueWithPriority (command : string) (priority : Z) (am : AgentManager)
    : AgentManager :=
  let item := QueueItem.mk 0 (int_wrap (Z.of_nat (s_len (queue am)) + 1)) command
                "pending" "" 0 priority "" "" in
  let '(id, am1) := saveQueueItemToDB item am in
  let am2 := append_item (QueueItem.set_ID id item) am1 in
  broadcastMessage (Message.mk "queue_updated" (PQueue (queue_items am2))) am2.


(** [am.queue = append(am.queue[:i], am.queue[i+1:]...)]: the cells after
    [i] move one place down inside the same array; the cell that held the
    last item keeps it. *)
Definition remove_at (i : nat) (am : AgentManager) : AgentManager :=
  let s := queue am in
  let a := backing (arrays am) s in
  let n := s_len s in
  set_queue {| s_ptr := s_ptr s; s_len := (n - 1)%nat |}
    (set_arrays
       (<[s_ptr s := take i a ++ drop (S i) (take n a) ++ drop (n - 1) a]> (arrays am))
       am).

Definition RemoveFromQueue (index : Z) (am : AgentManager) : bool * AgentManager :=
  match find_index index (queue_items am) 0 with
  | Some (i, item) =>
      let am1 := deleteQueueItemFromDB (QueueItem.ID item) am in
      let am2 := remove_at i am1 in
      let am3 := broadcastMessage (Message.mk "queue_updated" (PQueue (queue_items am2))) am2 in
      (true, am3)
  | None => (false, am)
  end.

Definition GetNextQueueItem (am : AgentManager) : option item_ptr * AgentManager :=
  match scan_best (queue_items am) 0 None (-1) with
  | Some bestIdx =>
      let p := {| p_arr := s_ptr (queue am); p_idx := bestIdx |} in
      let am1 := store_item p (QueueItem.set_Status "running") am in
      let am2 := updateQueueItemInDB
                   (default QueueItem.zero (load_item (arrays am1) p)) am1 in
      (Some p, am2)
  | None => (None, am)
  end.

(** [GetNextBatch]: the first [batchSize] pending items, whatever their
    priority, are set to running; the batch holds copies of them. *)
Definition GetNextBatch_step (batchSize : Z)
    (acc : list QueueItem.t * AgentManager) (i : nat) : list QueueItem.t * AgentManager :=
  let '(batch, am) := acc in
  let p := {| p_arr := s_ptr (queue am); p_idx := i |} in
  match queue_items am !! i with
  | Some item =>
      if String.eqb (QueueItem.Status item) "pending"
         && (Z.of_nat (length batch) <? batchSize)
      then
        let am1 := store_item p (QueueItem.set_Status "running") am in
        let item1 := default QueueItem.zero (load_item (arrays am1) p) in
        (batch ++ [item1], updateQueueItemInDB item1 am1)
      else acc
  | None => acc
  end.

Definition GetNextBatch (batchSize : Z) (am : AgentManager)
    : list QueueItem.t * AgentManager :=
  foldl (GetNextBatch_step batchSize) ([], am) (seq 0 (s_len (queue am))).

Definition CompleteQueueItem (index : Z) (output : string) (success : bool)
    (am : AgentManager) : AgentManager :=
  match find_index index (queue_items am) 0 with
  | Some (i, _) =>
      let p := {| p_arr := s_ptr (queue am); p_idx := i |} in
      let am1 := store_item p
                   (QueueItem.set_Status (if success then "completed" else "failed")) am in
      let am2 := store_item p (QueueItem.set_Output output) am1 in
      updateQueueItemInDB (default QueueItem.zero (load_item (arrays am2) p)) am2
  | None => am
  end.

(** *** Running a command *)

(** The error text and the exit code that [ExecuteCommand] takes from the
    error of [CombinedOutput]. *)
Definition error_text (e : proc_error) : string :=
  match e with
  | NoError => ""
  | ExitError msg _ => msg
  | OtherError msg => msg
  end.
Definition exit_code (e : proc_error) : Z :=
  match e with
  | NoError => 0
  | ExitError _ code => code
  | OtherError _ => 1
  end.

(** The writes of [ExecuteCommand] after the command has run. *)
Definition finish (exitCode : Z) (a : Agent.t) : Agent.t :=
  let a := Agent.set_idle a in
  if exitCode =? 0
  then Agent.set_TasksDone (int_wrap (Agent.TasksDone a + 1)) a
  else Agent.set_TasksFailed (int_wrap (Agent.TasksFailed a + 1)) a.

(** [ExecuteCommand].  [accepted] is the command that goes on to the shell:
    the one [validateCommand] returned when it is valid; when it is not, the
    command itself if it lacks the prefix, and none (the error return) if it
    has it. *)
Definition ExecuteCommand (agentID : Z) (command : string) (am : AgentManager)
    : CommandResult.t * AgentManager :=
  if terminated am
  then (CommandResult.mk agentID command "" "System terminated by <END!> signal" 0 0 "", am)
  else
    let agent := agents am !! agentID in
    let am1 :=
      match agent with
      | Some p =>
          let '(t, am) := now am in
          let am := store_agent p (Agent.start command t) am in
          saveAgentToDB (default Agent.zero (load_agent am p)) am
      | None => am
      end in
    let am2 := broadcastMessage
                 (Message.mk "agent_status" (PAgent (agent ≫= load_agent am1))) am1 in
    let '(startTime, am3) := now am2 in
    let '(stamp, am4) := now am3 in
    let Timestamp := formatRFC3339 E stamp in
    let '(actualCommand, valid) := validateCommand command in
    let accepted :=
      if valid then Some actualCommand
      else if negb (HasPrefix command "RUN ") then Some command
      else None in
    match accepted with
    | None =>
        let result := CommandResult.mk agentID command ""
                        "Invalid command format. Use: RUN <command>" 1 0 Timestamp in
        let am5 := saveLogToDB
                     (LogEntry.mk agentID "error" "Invalid command format" command "" 1 0)
                     am4 in
        (result, am5)
    | Some actualCommand =>
        let argv := if windows E then ["cmd"; "/C"; actualCommand]
                    else ["sh"; "-c"; actualCommand] in
        let out := CombinedOutput E (trace am4) argv in
        let am5 := emit (Spawn argv) am4 in
        let '(finished, am6) := now am5 in
        let result := CommandResult.mk agentID command (p_output out)
                        (error_text (p_err out)) (exit_code (p_err out))
                        ((finished - startTime) `quot` 1000000) Timestamp in
        let am7 :=
          match agent with
          | Some p =>
              let am := store_agent p (finish (CommandResult.ExitCode result)) am6 in
              saveAgentToDB (default Agent.zero (load_agent am p)) am
          | None => am6
          end in
        let level := if CommandResult.ExitCode result =? 0 then "info" else "error" in
        let am8 := saveLogToDB
                     (LogEntry.mk agentID level "Command executed" actualCommand
                        (CommandResult.Output result) (CommandResult.ExitCode result)
                        (CommandResult.Duration result))
                     am7 in
        let am9 := logResultToFile result am8 in
        let am10 := broadcastMessage (Message.mk "command_result" (PResult result)) am9 in
        let am11 := broadcastMessage
                      (Message.mk "agent_status" (PAgent (agent ≫= load_agent am10))) am10 in
        (result, am11)
    end.

(** *** The loop of an agent and termination *)

(** The guard of the loop of [StartAgentLoop].  The flags are read under no
    lock, and nothing in the body reads them again before the claim. *)
Definition loop_guard (am : AgentManager) : bool :=
  running am && negb (terminated am).

(** The body of the loop, from the claim to the completion.  It is entered
    when the guard was found true; what other goroutines did to the manager
    since then is in [am]. *)
Definition loop_body (agentID : Z) (am : AgentManager) : AgentManager :=
  match GetNextQueueItem am with
  | (Some item, am1) =>
      let am2 := store_item item (QueueItem.set_AgentID agentID) am1 in
      let am3 := updateQueueItemInDB
                   (default QueueItem.zero (load_item (arrays am2) item)) am2 in
      let '(result, am4) :=
        ExecuteCommand agentID
          (QueueItem.Command (default QueueItem.zero (load_item (arrays am3) item)))
          am3 in
      CompleteQueueItem
        (QueueItem.Index (default QueueItem.zero (load_item (arrays am4) item)))
        (CommandResult.Output result)
        (CommandResult.ExitCode result =? 0) am4
  | (None, am1) => am1
  end.

(** One turn of the loop run with nothing in between: the guard, then the
    body.  [None] means that the guard was false, so the loop is over. *)
Definition loop_turn (agentID : Z) (am : AgentManager) : option AgentManager :=
  if loop_guard am then Some (loop_body agentID am) else None.

(** The goroutine of [StartAgentLoop]; [fuel] bounds the number of turns. *)
Fixpoint StartAgentLoop (fuel : nat) (agentID : Z) (am : AgentManager)
    : outcome AgentManager :=
  match fuel with
  | O => OutOfFuel
  | S fuel' =>
      match loop_turn agentID am with
      | Some am' => StartAgentLoop fuel' agentID am'
      | None => Done am
      end
  end.

(** The goroutine of a loop among the others: it stands at its guard or,
    having found the guard true, before its body.  Between two steps of a
    loop the other goroutines may do anything to the manager. *)
Inductive loop_pc := AtGuard | AtBody | Ended.

Definition loop_step (agentID : Z) (st : loop_pc * AgentManager)
    : loop_pc * AgentManager :=
  match st with
  | (AtGuard, am) => if loop_guard am then (AtBody, am) else (Ended, am)
  | (AtBody, am) => (AtGuard, loop_body agentID am)
  | (Ended, am) => (Ended, am)
  end.

Definition GracefulTerminate (signal : string) (am : AgentManager) : AgentManager :=
  if String.eqb signal "<END!>"
  then
    let am1 := set_running false (set_terminated true am) in
    let am2 := saveLogToDB
                 (LogEntry.mk 0 "warn" "System terminated by <END!> signal" "" "" 0 0)
                 am1 in
    broadcastMessage
      (Message.mk "terminated" (PReason "Graceful termination via <END!> signal")) am2
  else am.

(** The case [stop] of [handleMessage]: the flag is cleared directly, with
    no call of [GracefulTerminate], and the clients are told. *)
Definition handleMessage_stop (am : AgentManager) : AgentManager :=
  broadcastMessage (Message.mk "stopped" PNil) (set_running false am).

(** *** Sequences of calls *)

(** What the goroutines of the server do to the manager, one step each.
    [OpLoopTurn] is a turn of an agent's loop that nothing interrupts;
    [OpLoopBody] is the body of a loop whose guard was read earlier, so that
    other steps may lie between the guard and the claim. *)

Inductive Op :=
  | OpAddAgent (name : string)
  | OpRemoveAgent (id : Z)
  | OpAddToQueue (commands : gmap string string)
  | OpAddToQueueWithPriority (command : string) (priority : Z)
  | OpRemoveFromQueue (index : Z)
  | OpGetNextQueueItem
  | OpCompleteQueueItem (index : Z) (output : string) (success : bool)
  | OpExecuteCommand (agentID : Z) (command : string)
  | OpLoopTurn (agentID : Z)
  | OpGracefulTerminate (signal : string)
  | OpLoopBody (agentID : Z)
  | OpStop.

Definition apply_op (fuel : nat) (op : Op) (am : AgentManager) : outcome AgentManager :=
  match op with
  | OpAddAgent name =>
      match AddAgent fuel name am with
      | Done (_, am') => Done am'
      | OutOfFuel => OutOfFuel
      end
  | OpRemoveAgent id => Done (RemoveAgent id am).2
  | OpAddToQueue commands => Done (AddToQueue commands am)
  | OpAddToQueueWithPriority command priority =>
      Done (AddToQueueWithPriority command priority am)
  | OpRemoveFromQueue index => Done (RemoveFromQueue index am).2
  | OpGetNextQueueItem => Done (GetNextQueueItem am).2
  | OpCompleteQueueItem index output success =>
      Done (CompleteQueueItem index output success am)
  | OpExecuteCommand agentID command => Done (ExecuteCommand agentID command am).2
  | OpLoopTurn agentID => Done (default am (loop_turn agentID am))
  | OpGracefulTerminate signal => Done (GracefulTerminate signal am)
  | OpLoopBody agentID => Done (loop_body agentID am)
  | OpStop => Done (handleMessage_stop am)
  end.

Fixpoint run (fuel : nat) (ops : list Op) (am : AgentManager) : outcome AgentManager :=
  match ops with
  | [] => Done am
  | op :: rest =>
      match apply_op fuel op am with
      | Done am' => run fuel rest am'
      | OutOfFuel => OutOfFuel
      end
  end.

End Manager.

(** ** What the claims speak about *)

(** The queue is well formed when its length fits its backing array. *)
Definition wf_queue (am : AgentManager) : Prop :=
  (s_len (queue am) ≤ length (backing (arrays am) (queue am)))%nat.

Definition pending (q : QueueItem.t) : Prop := QueueItem.Status q = "pending".

(** Position [i] holds the item that the specification serves next: it is
    pending, no pending item has a higher priority, and every earlier pending
    item has a strictly lower priority. *)
Definition best_pending (items : list QueueItem.t) (i : nat) : Prop :=
  ∃ q, items !! i = Some q ∧ pending q ∧
    (∀ j q', items !! j = Some q' → pending q' →
       QueueItem.Priority q' ≤ QueueItem.Priority q) ∧
    (∀ j q', (j < i)%nat → items !! j = Some q' → pending q' →
       QueueItem.Priority q' < QueueItem.Priority q).

(** [id] is the smallest integer from [lo] on that is not a key of [m]. *)
Definition smallest_unused (lo : Z) (m : gmap Z nat) (id : Z) : Prop :=
  lo ≤ id ∧ m !! id = None ∧ ∀ k, lo ≤ k < id → is_Some (m !! k).

(** The command text that reaches the shell. *)
Definition shell_command (command : string) : string :=
  if HasPrefix command "RUN " then TrimPrefix command "RUN " else command.

Definition shell_argv (E : Env) (command : string) : list string :=
  if windows E then ["cmd"; "/C"; shell_command command]
  else ["sh"; "-c"; shell_command command].

(** The subprocesses in a trace, newest first. *)
Definition spawned (tr : list Effect) : list (list string) :=
  omap (λ e, match e with Spawn argv => Some argv | _ => None end) tr.

(** The slots that [AddToQueue] takes from a map, with their commands, in
    the order in which it appends them: the keys ["1"], ["2"], ... up to the
    size of the map, where present. *)
Definition slots (commands : gmap string string) : list (nat * string) :=
  omap (λ i, (λ cmd, (i, cmd)) <$> commands !! Sprintf_d (Z.of_nat i))
       (seq 1 (size commands)).

(** The item that [AddToQueue] appends for a slot. *)
Definition enqueued (baseIndex : Z) (batchID : string)
    (q : QueueItem.t) (slot : nat * string) : Prop :=
  q = QueueItem.mk (QueueItem.ID q) (int_wrap (baseIndex + Z.of_nat slot.1)) slot.2
        "pending" "" 0 0 batchID "".

(** The commands of a map that come before the first gap in its numbering,
    as the claim about gaps words it. *)
Fixpoint before_gap_from (fuel : nat) (i : nat) (commands : gmap string string)
    : list string :=
  match fuel with
  | O => []
  | S fuel' =>
      match commands !! Sprintf_d (Z.of_nat i) with
      | Some cmd => cmd :: before_gap_from fuel' (S i) commands
      | None => []
      end
  end.
Definition before_gap (commands : gmap string string) : list string :=
  before_gap_from (size commands) 1 commands.

(** In the trace [l] the subprocess [argv] was started when the trace was
    [tr], and none was started after it. *)
Inductive spawn_on (argv : list string) (tr : list Effect) : list Effect → Prop :=
  | spawn_here : spawn_on argv tr (Spawn argv :: tr)
  | spawn_before e l :
      (∀ a, e ≠ Spawn a) → spawn_on argv tr l → spawn_on argv tr (e :: l).

(** A step that touches nothing but the clock and the trace, and starts no
    subprocess. *)
Definition quiet (am am' : AgentManager) : Prop :=
  agents am' = agents am ∧ agent_heap am' = agent_heap am ∧
  queue am' = queue am ∧ arrays am' = arrays am ∧
  maxAgents am' = maxAgents am ∧ running am' = running am ∧
  terminated am' = terminated am ∧ db am' = db am ∧
  spawned (trace am') = spawned (trace am).

(** What the operations on the queue leave alone: the registry, the agent
    records and the settings of the manager. *)
Definition registry_frame (am am' : AgentManager) : Prop :=
  agents am' = agents am ∧ agent_heap am' = agent_heap am ∧
  maxAgents am' = maxAgents am ∧ running am' = running am ∧
  terminated am' = terminated am ∧ db am' = db am.

(** What running a command leaves alone: the registry map, the queue and the
    settings of the manager. *)
Definition queue_frame (am am' : AgentManager) : Prop :=
  agents am' = agents am ∧ queue am' = queue am ∧ arrays am' = arrays am ∧
  maxAgents am' = maxAgents am ∧ running am' = running am ∧
  terminated am' = terminated am ∧ db am' = db am.

(** What every operation but [GracefulTerminate] and the two on the registry
    leaves alone. *)
Definition settings_frame (am am' : AgentManager) : Prop :=
  agents am' = agents am ∧ maxAgents am' = maxAgents am ∧
  running am' = running am ∧ terminated am' = terminated am ∧ db am' = db am.

(** ** Fixtures

    An environment on a Unix system whose shell always succeeds. *)
Definition env_ok : Env :=
  {| windows := false;
     timeNow := λ n, Z.of_nat n * 1000000;
     formatRFC3339 := λ t, Sprintf_d t;
     CombinedOutput := λ _ _, {| p_output := "hi"; p_err := NoError |};
     insertQueueRow := λ tr _, Z.of_nat (length tr) + 1;
     growslice := λ old _, (2 * old)%nat |}.

(** A registry with one idle agent, and the same with two queued commands. *)
Definition agent_alpha : Agent.t := Agent.mk 1 "alpha" "idle" "" 0 1000000 0 0 0 0 0.
Definition am_alpha : AgentManager :=
  set_agents {[ 1 := 0%nat ]}
    (set_agent_heap {[ 0%nat := agent_alpha ]} (NewAgentManager false)).
Definition am_queued : AgentManager :=
  AddToQueueWithPriority env_ok "RUN echo b" 1
    (AddToQueueWithPriority env_ok "RUN echo a" 3 am_alpha).

(** Twelve agents are asked for; one is removed on the way. *)
Definition twelve_agents : list Op :=
  [OpAddAgent "a1"; OpAddAgent "a2"; OpAddAgent "a3"; OpAddAgent "a4";
   OpRemoveAgent 2; OpAddAgent "a5"; OpAddAgent "a6"; OpAddAgent "a7";
   OpAddAgent "a8"; OpAddAgent "a9"; OpAddAgent "a10"; OpAddAgent "a11";
   OpAddAgent "a12"].

(** Command maps: two slots, one slot, and slots with a gap at 2. *)
Definition two_commands : gmap string string :=
  {[ "1" := "RUN echo a"; "2" := "RUN echo b" ]}.
Definition one_command : gmap string string := {[ "1" := "RUN echo c" ]}.
Definition gap_commands : gmap string string :=
  {[ "1" := "RUN echo a"; "3" := "RUN echo c" ]}.
Definition wide_gap_commands : gmap string string :=
  {[ "1" := "RUN echo a"; "3" := "RUN echo c"; "4" := "RUN echo d" ]}.

(** ** Further notions: the registry and the queue as a whole *)

(** Every registered id refers to a record, and the record carries that id. *)
Definition wf_registry (am : AgentManager) : Prop :=
  ∀ id p, agents am !! id = Some p →
    ∃ a, agent_heap am !! p = Some a ∧ Agent.ID a = id.

(** The ids of the registry lie between 1 and the maximum. *)
Definition ids_in_range (am : AgentManager) : Prop :=
  ∀ id p, agents am !! id = Some p → 1 ≤ id ≤ maxAgents am.

(** What every sequence of operations keeps: the registry is well formed
    and within its maximum, with ids from 1 to the maximum, and the queue
    fits its backing array. *)
Definition manager_inv (am : AgentManager) : Prop :=
  wf_registry am ∧ ids_in_range am ∧ wf_queue am ∧
  Z.of_nat (size (agents am)) ≤ maxAgents am.

(** A day in the life of a manager: agents come and go, commands are
    enqueued, claimed, run and removed. *)
Definition busy_day : list Op :=
  [OpAddAgent "a1"; OpAddAgent "a2"; OpAddToQueue two_commands;
   OpLoopTurn 1; OpRemoveAgent 1; OpAddToQueueWithPriority "RUN echo z" 4;
   OpAddAgent "a3"; OpExecuteCommand 2 "RUN echo hi"; OpRemoveFromQueue 2;
   OpLoopTurn 7; OpGetNextQueueItem; OpCompleteQueueItem 1 "done" true;
   OpAddToQueue wide_gap_commands; OpGracefulTerminate "<END!>"; OpAddAgent "a4"].

#[global] Instance pending_dec (q : QueueItem.t) : Decision (pending q).
Proof. unfold pending. apply _. Defined.

(** The number of pending items. *)
Definition count_pending (items : list QueueItem.t) : nat :=
  length (filter pending items).

(** [n] calls of [GetNextQueueItem] in a row, with what each returned. *)
Fixpoint claim_n (n : nat) (am : AgentManager) : list (option item_ptr) * AgentManager :=
  match n with
  | O => ([], am)
  | S n' =>
      let '(p, am1) := GetNextQueueItem am in
      let '(ps, am2) := claim_n n' am1 in
      (p :: ps, am2)
  end.

(** A pending item becomes running; any other item stays. *)
Definition claimed (q : QueueItem.t) : QueueItem.t :=
  if decide (pending q) then QueueItem.set_Status "running" q else q.

(** The queue after its first [k] pending items have been set to running. *)
Fixpoint mark_pending (k : nat) (items : list QueueItem.t) : list QueueItem.t :=
  match items, k with
  | [], _ => []
  | _, O => items
  | q :: rest, S k' =>
      if decide (pending q)
      then QueueItem.set_Status "running" q :: mark_pending k' rest
      else q :: mark_pending k rest
  end.

(** ** Further notions: what goes into the trace *)

(** The effects that are statements to the database. *)
Definition is_db (e : Effect) : bool :=
  match e with
  | SaveAgent _ | DeleteAgent _ | SaveQueueItem _ | UpdateQueueItem _
  | DeleteQueueItem _ | SaveLog _ => true
  | Broadcast _ | Spawn _ | LogFile _ => false
  end.

(** The operations that run a command. *)
Definition executes (op : Op) : bool :=
  match op with
  | OpExecuteCommand _ _ | OpLoopTurn _ | OpLoopBody _ => true
  | _ => false
  end.

(** The trace [l] is the trace [tr] with effects that satisfy [P] put on top. *)
Inductive extends (P : Effect → Prop) (tr : list Effect) : list Effect → Prop :=
  | extends_refl : extends P tr tr
  | extends_cons e l : P e → extends P tr l → extends P tr (e :: l).

(** On a manager whose [db] flag is [d], the step keeps the flag and adds
    only effects that satisfy [P]. *)
Definition emits (P : Effect → Prop) (d : bool) (am am' : AgentManager) : Prop :=
  db am = d → db am' = d ∧ extends P (trace am) (trace am').



(** ** Lists and slices *)

Lemma list_alter_ge {A} (f : A → A) (l : list A) (i : nat) :
  (length l ≤ i)%nat → alter f i l = l.
Proof.
  revert i. induction l as [|x l IH]; intros [|i] Hi; simpl in *; try done; try lia.
  f_equal. apply IH. lia.
Qed.

Section Slices.
Context (E : Env).

Lemma append_item_items item am :
  wf_queue am → queue_items (append_item E item am) = queue_items am ++ [item].
Proof.
  unfold wf_queue, queue_items, read_slice, append_item, backing. intros Hwf.
  destruct (queue am) as [p n] eqn:Hq. simpl in *.
  set (a := default [] (arrays am !! p)) in *.
  destruct (n <? length a)%nat eqn:Hlt; simpl.
  - apply Nat.ltb_lt in Hlt. rewrite lookup_insert_eq. simpl.
    rewrite take_S_r with (x := item).
    + by rewrite take_insert_ge by lia.
    + by apply list_lookup_insert_eq.
  - rewrite lookup_insert_eq. simpl.
    rewrite (take_app_ge (take n a)); rewrite length_take; [|lia].
    replace (S n - n `min` length a)%nat with 1%nat by lia.
    reflexivity.
Qed.

Lemma append_item_wf item am : wf_queue am → wf_queue (append_item E item am).
Proof.
  unfold wf_queue, append_item, backing. intros Hwf.
  destruct (queue am) as [p n] eqn:Hq. simpl in *.
  set (a := default [] (arrays am !! p)) in *.
  destruct (n <? length a)%nat eqn:Hlt; simpl.
  - apply Nat.ltb_lt in Hlt. rewrite lookup_insert_eq. simpl.
    rewrite length_insert. lia.
  - rewrite lookup_insert_eq. simpl.
    rewrite length_app, length_take. simpl. rewrite length_replicate. lia.
Qed.

Lemma append_item_len item am :
  s_len (queue (append_item E item am)) = S (s_len (queue am)).
Proof. unfold append_item. by destruct (_ <? _)%nat. Qed.

End Slices.

Lemma remove_at_items i am :
  wf_queue am → (i < s_len (queue am))%nat →
  queue_items (remove_at i am) = delete i (queue_items am).
Proof.
  unfold wf_queue, queue_items, read_slice, remove_at, backing. intros Hwf Hi.
  destruct (queue am) as [p n] eqn:Hq. simpl in *.
  set (a := default [] (arrays am !! p)) in *.
  rewrite lookup_insert_eq. simpl.
  rewrite app_assoc, take_app_le.
  2:{ rewrite length_app, length_take, length_drop, length_take. lia. }
  rewrite take_ge.
  2:{ rewrite length_app, length_take, length_drop, length_take. lia. }
  rewrite delete_take_drop. f_equal.
  by rewrite take_take, Nat.min_l by lia.
Qed.

Lemma remove_at_wf i am : wf_queue am → wf_queue (remove_at i am).
Proof.
  unfold wf_queue, remove_at, backing. intros Hwf.
  destruct (queue am) as [p n] eqn:Hq. simpl in *.
  set (a := default [] (arrays am !! p)) in *.
  rewrite lookup_insert_eq. simpl.
  rewrite !length_app, length_take, !length_drop, length_take. lia.
Qed.

Lemma store_item_items i f am :
  queue_items (store_item {| p_arr := s_ptr (queue am); p_idx := i |} f am)
  = alter f i (queue_items am).
Proof.
  unfold queue_items, read_slice, store_item, backing. simpl.
  rewrite lookup_alter_eq.
  destruct (arrays am !! s_ptr (queue am)) as [a|]; simpl.
  - destruct (decide (i < s_len (queue am))%nat).
    + by rewrite take_alter_lt.
    + rewrite take_alter_ge by lia. symmetry. apply list_alter_ge.
      rewrite length_take. lia.
  - by rewrite take_nil.
Qed.

Lemma store_item_wf p f am : wf_queue am → wf_queue (store_item p f am).
Proof.
  unfold wf_queue, store_item, backing. simpl. intros Hwf.
  destruct (decide (p_arr p = s_ptr (queue am))) as [->|Hne].
  - rewrite lookup_alter_eq.
    destruct (arrays am !! s_ptr (queue am)) as [a|]; simpl in *; [|done].
    by rewrite length_alter.
  - by rewrite lookup_alter_ne.
Qed.

Lemma load_item_queue i am :
  (i < s_len (queue am))%nat →
  load_item (arrays am) {| p_arr := s_ptr (queue am); p_idx := i |} = queue_items am !! i.
Proof.
  unfold load_item, queue_items, read_slice, backing. simpl. intros Hi.
  destruct (arrays am !! s_ptr (queue am)) as [a|]; simpl.
  - by rewrite lookup_take_lt.
  - by rewrite take_nil.
Qed.

Lemma queue_items_length am : (length (queue_items am) ≤ s_len (queue am))%nat.
Proof. unfold queue_items, read_slice. rewrite length_take. lia. Qed.

Lemma NewAgentManager_wf connected : wf_queue (NewAgentManager connected).
Proof. unfold wf_queue. simpl. lia. Qed.

(** ** The loops over the queue *)

Lemma pending_eqb q :
  String.eqb (QueueItem.Status q) "pending" = true ↔ pending q.
Proof. apply String.eqb_eq. Qed.

(** What the scan of [GetNextQueueItem] returns, for any starting point. *)
Lemma scan_best_inv items : ∀ k best bp,
  match scan_best items k best bp with
  | Some r =>
      (Some r = best ∧
         ∀ j q, items !! j = Some q → pending q → QueueItem.Priority q ≤ bp)
      ∨ (∃ j q, r = (k + j)%nat ∧ items !! j = Some q ∧ pending q ∧
           bp < QueueItem.Priority q ∧
           (∀ j' q', items !! j' = Some q' → pending q' →
              QueueItem.Priority q' ≤ QueueItem.Priority q) ∧
           (∀ j' q', (j' < j)%nat → items !! j' = Some q' → pending q' →
              QueueItem.Priority q' < QueueItem.Priority q))
  | None =>
      best = None ∧
      ∀ j q, items !! j = Some q → pending q → QueueItem.Priority q ≤ bp
  end.
Proof.
  induction items as [|item rest IH]; intros k best bp; simpl.
  - destruct best; [left|]; split; try done; intros j q Hj; by destruct j.
  - destruct (String.eqb (QueueItem.Status item) "pending"
              && (bp <? QueueItem.Priority item)) eqn:Hel.
    + apply andb_true_iff in Hel as [Hp Hlt].
      apply pending_eqb in Hp. apply Z.ltb_lt in Hlt.
      specialize (IH (S k) (Some k) (QueueItem.Priority item)).
      destruct (scan_best rest (S k) (Some k) (QueueItem.Priority item)) as [r|];
        [|by destruct IH].
      right. destruct IH as [[Hr Hall]|(j & q & -> & Hj & Hq & Hbp & Hmax & Hfst)].
      * exists 0%nat, item. injection Hr as ->.
        split_and!; [lia|done|done|lia|..].
        -- intros [|j'] q' Hj' Hq'; simpl in Hj'; simplify_eq; [lia|eauto].
        -- intros j' q' Hlt'. lia.
      * exists (S j), q.
        split_and!; [lia|done|done|lia|..].
        -- intros [|j'] q' Hj' Hq'; simpl in Hj'; simplify_eq; [lia|eauto].
        -- intros [|j'] q' Hlt' Hj' Hq'; simpl in Hj'; simplify_eq; [lia|].
           apply (Hfst j'); [lia|done..].
    + assert (Hitem : pending item → QueueItem.Priority item ≤ bp).
      { intros Hp. apply pending_eqb in Hp. rewrite Hp in Hel. simpl in Hel.
        apply Z.ltb_ge in Hel. lia. }
      specialize (IH (S k) best bp).
      destruct (scan_best rest (S k) best bp) as [r|].
      * destruct IH as [[Hr Hall]|(j & q & -> & Hj & Hq & Hbp & Hmax & Hfst)].
        -- left. split; [done|].
           intros [|j'] q' Hj' Hq'; simpl in Hj'; simplify_eq; eauto.
        -- right. exists (S j), q.
           split_and!; [lia|done|done|lia|..].
           ++ intros [|j'] q' Hj' Hq'; simpl in Hj'; simplify_eq; [|eauto].
              specialize (Hitem Hq'). lia.
           ++ intros [|j'] q' Hlt' Hj' Hq'; simpl in Hj'; simplify_eq.
              ** specialize (Hitem Hq'). lia.
              ** apply (Hfst j'); [lia|done..].
      * destruct IH as [-> Hall]. split; [done|].
        intros [|j'] q' Hj' Hq'; simpl in Hj'; simplify_eq; eauto.
Qed.

(** The scan as [GetNextQueueItem] starts it. *)
Lemma scan_best_Some items i :
  scan_best items 0 None (-1) = Some i →
  best_pending items i ∧ ∃ q, items !! i = Some q ∧ -1 < QueueItem.Priority q.
Proof.
  intros Hs. pose proof (scan_best_inv items 0 None (-1)) as H. rewrite Hs in H.
  destruct H as [[? _]|(j & q & -> & Hj & Hq & Hbp & Hmax & Hfst)]; [done|].
  simpl. split; [|by exists q]. exists q. repeat split; eauto.
Qed.

Lemma scan_best_None items :
  scan_best items 0 None (-1) = None →
  ∀ j q, items !! j = Some q → pending q → QueueItem.Priority q ≤ -1.
Proof.
  intros Hs. pose proof (scan_best_inv items 0 None (-1)) as H. rewrite Hs in H.
  by destruct H.
Qed.

Lemma best_pending_unique items i j :
  best_pending items i → best_pending items j → i = j.
Proof.
  intros (q & Hi & Hq & Hmax & Hfst) (q' & Hj & Hq' & Hmax' & Hfst').
  destruct (Nat.lt_trichotomy i j) as [Hlt|[->|Hlt]]; [|done|].
  - pose proof (Hfst' i q Hlt Hi Hq). pose proof (Hmax' i q Hi Hq).
    pose proof (Hmax j q' Hj Hq'). lia.
  - pose proof (Hfst j q' Hlt Hj Hq'). pose proof (Hmax j q' Hj Hq'). 
    pose proof (Hmax' i q Hi Hq). lia.
Qed.

(** What the loops of [RemoveFromQueue] and [CompleteQueueItem] find. *)
Lemma find_index_Some index items : ∀ k i q,
  find_index index items k = Some (i, q) →
  ∃ j, i = (k + j)%nat ∧ items !! j = Some q ∧ QueueItem.Index q = index ∧
       ∀ j' q', (j' < j)%nat → items !! j' = Some q' → QueueItem.Index q' ≠ index.
Proof.
  induction items as [|item rest IH]; intros k i q; simpl; [done|].
  destruct (QueueItem.Index item =? index) eqn:Heq.
  - intros [= <- <-]. apply Z.eqb_eq in Heq. exists 0%nat.
    split_and!; [lia|done|done|]. intros j' q' Hlt. lia.
  - intros (j & -> & Hj & Hq & Hfst)%IH. apply Z.eqb_neq in Heq.
    exists (S j). split_and!; [lia|done|done|].
    intros [|j'] q' Hlt Hj'; simpl in Hj'; simplify_eq; [done|].
    apply (Hfst j'); [lia|done].
Qed.

Lemma find_index_None index items k :
  find_index index items k = None ↔
  ∀ j q, items !! j = Some q → QueueItem.Index q ≠ index.
Proof.
  revert k. induction items as [|item rest IH]; intros k; simpl.
  - split; [|done]. intros _ j q Hj. by destruct j.
  - destruct (QueueItem.Index item =? index) eqn:Heq.
    + apply Z.eqb_eq in Heq. split; [done|]. intros H. by destruct (H 0%nat item).
    + apply Z.eqb_neq in Heq. rewrite IH. split.
      * intros H [|j] q Hj; simpl in Hj; [by injection Hj as <-|eauto].
      * intros H j q Hj. apply (H (S j)). done.
Qed.

(** ** The registry *)

(** Unfolds the persistence and broadcast helpers, whose only effect is on
    the trace and the clock. *)
Ltac unfold_io :=
  unfold logResultToFile, broadcastMessage, saveLogToDB, deleteQueueItemFromDB,
    updateQueueItemInDB, saveQueueItemToDB, deleteAgentFromDB, saveAgentToDB,
    now, emit in *.

(** Runs the state-passing code by value, leaving maps and strings alone. *)
Ltac run_io :=
  cbv [ExecuteCommand validateCommand logResultToFile broadcastMessage saveLogToDB
       deleteQueueItemFromDB updateQueueItemInDB saveQueueItemToDB
       deleteAgentFromDB saveAgentToDB now emit store_agent load_agent
       agents agent_heap queue arrays maxAgents running terminated db clock trace
       set_agents set_agent_heap set_queue set_arrays set_running set_terminated
       set_clock set_trace fst snd negb].

(** Opens the manager into its fields, with and without a database. *)
Ltac destruct_am am :=
  destruct am as [? ? ? ? ? ? ? [] ? ?]; simpl in *.

Lemma RemoveAgent_present id p am :
  agents am !! id = Some p →
  ∃ am', RemoveAgent id am = (true, am') ∧ agents am' = delete id (agents am) ∧
         agent_heap am' = agent_heap am ∧ maxAgents am' = maxAgents am.
Proof.
  intros Hp. unfold RemoveAgent. rewrite Hp. eexists. split; [done|].
  unfold_io. by destruct_am am.
Qed.

Lemma RemoveAgent_absent id am :
  agents am !! id = None → RemoveAgent id am = (false, am).
Proof. intros Hp. unfold RemoveAgent. by rewrite Hp. Qed.

(** C8: removing a registered agent twice answers true and then false, and
    the second call changes nothing; removing a queue index that no item
    carries answers false and leaves the manager, and so the queue, as it
    was. *)
Theorem remove_twice_and_remove_absent :
  (∀ id am, is_Some (agents am !! id) →
     ∃ am1, RemoveAgent id am = (true, am1) ∧ RemoveAgent id am1 = (false, am1))
  ∧ (∀ index am,
       (∀ j q, queue_items am !! j = Some q → QueueItem.Index q ≠ index) →
       RemoveFromQueue index am = (false, am)).
Proof.
  split.
  - intros id am [p Hp].
    destruct (RemoveAgent_present id p am Hp) as (am1 & Hrm & Hag & _).
    exists am1. split; [done|]. apply RemoveAgent_absent.
    rewrite Hag. apply lookup_delete_eq.
  - intros index am Habs. unfold RemoveFromQueue.
    by apply (find_index_None index (queue_items am) 0) in Habs as ->.
Qed.

(** On the registry with agent 1 and a queue with the indices 1 and 2. *)
Lemma remove_twice_and_remove_absent_witness :
  (∃ am1, RemoveAgent 1 am_queued = (true, am1) ∧ RemoveAgent 1 am1 = (false, am1))
  ∧ RemoveFromQueue 7 am_queued = (false, am_queued).
Proof.
  destruct remove_twice_and_remove_absent as [Hagent Hqueue]. split.
  - apply Hagent. exists 0%nat. reflexivity.
  - apply Hqueue. intros [|[|j]] q Hq; vm_compute in Hq; simplify_eq; done.
Defined.

(** A map that holds every key from 1 to [n] has at least [n] entries. *)
Lemma size_ge_of_keys (n : nat) : ∀ m : gmap Z nat,
  (∀ k, 1 ≤ k ≤ Z.of_nat n → is_Some (m !! k)) → (n ≤ size m)%nat.
Proof.
  induction n as [|n IH]; intros m Hkeys; [lia|].
  destruct (Hkeys (Z.of_nat (S n))) as [p Hp]; [lia|].
  assert (n ≤ size (delete (Z.of_nat (S n)) m))%nat as Hn.
  { apply IH. intros k Hk. rewrite lookup_delete_ne by lia. apply Hkeys. lia. }
  rewrite map_size_delete, Hp in Hn.
  assert (size m ≠ 0)%nat.
  { intros Hz%map_size_empty_iff. by rewrite Hz in Hp. }
  lia.
Qed.

Lemma int_wrap_id z : int_range z → int_wrap z = z.
Proof.
  unfold int_range, int_min, int_max, int_wrap. intros Hz.
  rewrite Z.mod_small; lia.
Qed.

(** The search of [AddAgent] ends, at the smallest free id, when it has a
    turn more than the registry has agents and the ids stay within [int]. *)
Lemma free_id_spec (m : gmap Z nat) : ∀ fuel id,
  1 ≤ id →
  (∀ k, 1 ≤ k < id → is_Some (m !! k)) →
  Z.of_nat (size m) < id - 1 + Z.of_nat fuel →
  Z.of_nat (size m) < int_max →
  ∃ r, free_id fuel id m = Some r ∧ smallest_unused 1 m r.
Proof.
  induction fuel as [|fuel IH]; intros id Hid Hkeys Hfuel Hmax.
  - assert (Z.to_nat (id - 1) ≤ size m)%nat.
    { apply size_ge_of_keys. intros k Hk. apply Hkeys. lia. }
    lia.
  - simpl. destruct (m !! id) as [p|] eqn:Hp.
    + assert (Z.to_nat id ≤ size m)%nat.
      { apply size_ge_of_keys. intros k Hk.
        destruct (decide (k = id)) as [->|]; [by rewrite Hp|]. apply Hkeys. lia. }
      rewrite int_wrap_id by (unfold int_range, int_min, int_max in *; lia).
      apply IH; [lia| |lia|done].
      intros k Hk. destruct (decide (k = id)) as [->|]; [by rewrite Hp|].
      apply Hkeys. lia.
    + exists id. by split_and!.
Qed.

Lemma smallest_unused_unique lo m a b :
  smallest_unused lo m a → smallest_unused lo m b → a = b.
Proof.
  intros (Ha & Hna & Hla) (Hb & Hnb & Hlb).
  destruct (Z.lt_trichotomy a b) as [Hlt|[->|Hlt]]; [|done|].
  - destruct (Hlb a) as [? Hs]; [lia|]. by rewrite Hna in Hs.
  - destruct (Hla b) as [? Hs]; [lia|]. by rewrite Hnb in Hs.
Qed.

Section Registry.
Context (E : Env).

Lemma AddAgent_full fuel name am :
  maxAgents am ≤ Z.of_nat (size (agents am)) →
  AddAgent E fuel name am = Done (None, am).
Proof.
  intros Hfull. unfold AddAgent.
  by destruct (Z.leb_spec (maxAgents am) (Z.of_nat (size (agents am)))); [|lia].
Qed.

(** What a successful [AddAgent] leaves behind. *)
Lemma AddAgent_room fuel name am :
  int_range (maxAgents am) →
  Z.of_nat (size (agents am)) < maxAgents am →
  (size (agents am) < fuel)%nat →
  ∃ id p am',
    AddAgent E fuel name am = Done (Some p, am') ∧
    smallest_unused 1 (agents am) id ∧
    agent_heap am !! p = None ∧
    agents am' = <[id := p]> (agents am) ∧
    agent_heap am' =
      <[p := Agent.mk id name "idle" "" (timeNow E (clock am))
               (timeNow E (S (clock am))) 0 0 0 0 0]> (agent_heap am) ∧
    maxAgents am' = maxAgents am ∧ terminated am' = terminated am ∧
    queue am' = queue am ∧ arrays am' = arrays am.
Proof.
  intros Hrange Hroom Hfuel. unfold AddAgent.
  destruct (Z.leb_spec (maxAgents am) (Z.of_nat (size (agents am)))); [lia|].
  destruct (free_id_spec (agents am) fuel 1) as (id & -> & Hid);
    [lia|intros k Hk; lia|lia|unfold int_range in Hrange; lia|].
  exists id, (fresh (dom (agent_heap am))). eexists. split; [reflexivity|].
  split; [done|]. split.
  { apply not_elem_of_dom, is_fresh. }
  unfold_io. by destruct_am am.
Qed.

End Registry.

(** ** What each operation leaves alone *)

Lemma quiet_refl am : quiet am am.
Proof. by unfold quiet. Qed.

Lemma quiet_trans am1 am2 am3 : quiet am1 am2 → quiet am2 am3 → quiet am1 am3.
Proof.
  intros (?&?&?&?&?&?&?&?&?) (?&?&?&?&?&?&?&?&?). unfold quiet.
  split_and!; congruence.
Qed.

Lemma set_clock_quiet n am : quiet am (set_clock n am).
Proof. by unfold quiet. Qed.

Lemma emit_quiet e am :
  (∀ argv, e ≠ Spawn argv) → quiet am (emit e am).
Proof.
  intros He. unfold quiet. split_and!; try done. unfold spawned. simpl.
  destruct e; try done. by destruct (He argv).
Qed.

Section Quiet.
Context (E : Env).

Lemma now_quiet am : quiet am (now E am).2.
Proof. apply set_clock_quiet. Qed.

Lemma saveAgentToDB_quiet agent am : quiet am (saveAgentToDB agent am).
Proof.
  unfold saveAgentToDB. destruct (db am); [by apply emit_quiet|apply quiet_refl].
Qed.

Lemma deleteAgentFromDB_quiet id am : quiet am (deleteAgentFromDB id am).
Proof.
  unfold deleteAgentFromDB. destruct (db am); [by apply emit_quiet|apply quiet_refl].
Qed.

Lemma saveQueueItemToDB_quiet item am : quiet am (saveQueueItemToDB E item am).2.
Proof.
  unfold saveQueueItemToDB. destruct (db am); [by apply emit_quiet|apply quiet_refl].
Qed.

Lemma updateQueueItemInDB_quiet item am : quiet am (updateQueueItemInDB item am).
Proof.
  unfold updateQueueItemInDB. destruct (db am); [by apply emit_quiet|apply quiet_refl].
Qed.

Lemma deleteQueueItemFromDB_quiet id am : quiet am (deleteQueueItemFromDB id am).
Proof.
  unfold deleteQueueItemFromDB. destruct (db am);
    [by apply emit_quiet|apply quiet_refl].
Qed.

Lemma saveLogToDB_quiet entry am : quiet am (saveLogToDB entry am).
Proof.
  unfold saveLogToDB. destruct (db am); [by apply emit_quiet|apply quiet_refl].
Qed.

Lemma broadcastMessage_quiet msg am : quiet am (broadcastMessage msg am).
Proof. by apply emit_quiet. Qed.

Lemma logResultToFile_quiet result am : quiet am (logResultToFile E result am).
Proof.
  unfold logResultToFile, now.
  eapply quiet_trans; [apply set_clock_quiet|by apply emit_quiet].
Qed.

End Quiet.

Create HintDb quiet.
#[local] Hint Resolve quiet_refl set_clock_quiet now_quiet saveAgentToDB_quiet
  deleteAgentFromDB_quiet saveQueueItemToDB_quiet updateQueueItemInDB_quiet
  deleteQueueItemFromDB_quiet saveLogToDB_quiet broadcastMessage_quiet
  logResultToFile_quiet : quiet.

(** Peels quiet calls off the state that the goal ends in, outermost first. *)
Ltac quiet :=
  repeat first
    [ solve [auto with quiet]
    | eapply quiet_trans; [|solve [auto with quiet]] ].

Lemma registry_frame_refl am : registry_frame am am.
Proof. by unfold registry_frame. Qed.

Lemma registry_frame_trans am1 am2 am3 :
  registry_frame am1 am2 → registry_frame am2 am3 → registry_frame am1 am3.
Proof.
  intros (?&?&?&?&?&?) (?&?&?&?&?&?). unfold registry_frame.
  split_and!; congruence.
Qed.

Lemma quiet_registry_frame am am' : quiet am am' → registry_frame am am'.
Proof. intros (?&?&?&?&?&?&?&?&?). by unfold registry_frame. Qed.

Lemma store_item_frame p f am : registry_frame am (store_item p f am).
Proof. by unfold registry_frame. Qed.

Lemma remove_at_frame i am : registry_frame am (remove_at i am).
Proof. by unfold registry_frame. Qed.

Lemma RemoveFromQueue_frame index am : registry_frame am (RemoveFromQueue index am).2.
Proof.
  unfold RemoveFromQueue. destruct (find_index _ _ _) as [[i item]|]; simpl;
    [|apply registry_frame_refl].
  eapply registry_frame_trans;
    [|apply quiet_registry_frame, broadcastMessage_quiet].
  eapply registry_frame_trans; [|apply remove_at_frame].
  apply quiet_registry_frame, deleteQueueItemFromDB_quiet.
Qed.

Lemma GetNextQueueItem_frame am : registry_frame am (GetNextQueueItem am).2.
Proof.
  unfold GetNextQueueItem. destruct (scan_best _ _ _ _) as [i|]; simpl;
    [|apply registry_frame_refl].
  eapply registry_frame_trans;
    [|apply quiet_registry_frame, updateQueueItemInDB_quiet].
  apply store_item_frame.
Qed.

Lemma CompleteQueueItem_frame index output success am :
  registry_frame am (CompleteQueueItem index output success am).
Proof.
  unfold CompleteQueueItem. destruct (find_index _ _ _) as [[i item]|]; simpl;
    [|apply registry_frame_refl].
  eapply registry_frame_trans;
    [|apply quiet_registry_frame, updateQueueItemInDB_quiet].
  eapply registry_frame_trans; apply store_item_frame.
Qed.

Lemma GracefulTerminate_frame signal am :
  agents (GracefulTerminate signal am) = agents am ∧
  agent_heap (GracefulTerminate signal am) = agent_heap am ∧
  maxAgents (GracefulTerminate signal am) = maxAgents am ∧
  queue (GracefulTerminate signal am) = queue am ∧
  arrays (GracefulTerminate signal am) = arrays am ∧
  (terminated am = true → terminated (GracefulTerminate signal am) = true).
Proof.
  unfold GracefulTerminate. destruct (String.eqb signal "<END!>"); [|done].
  unfold_io. by destruct_am am.
Qed.

(** The stop message clears [running], tells the clients, and does nothing
    else. *)
Lemma handleMessage_stop_frame am :
  agents (handleMessage_stop am) = agents am ∧
  agent_heap (handleMessage_stop am) = agent_heap am ∧
  maxAgents (handleMessage_stop am) = maxAgents am ∧
  queue (handleMessage_stop am) = queue am ∧
  arrays (handleMessage_stop am) = arrays am ∧
  terminated (handleMessage_stop am) = terminated am ∧
  db (handleMessage_stop am) = db am ∧
  running (handleMessage_stop am) = false ∧
  trace (handleMessage_stop am) = Broadcast (Message.mk "stopped" PNil) :: trace am.
Proof. by destruct am. Qed.

Section Frames.
Context (E : Env).

Lemma append_item_frame item am : registry_frame am (append_item E item am).
Proof. unfold registry_frame, append_item. by destruct (_ <? _)%nat. Qed.

Lemma AddToQueue_step_frame commands batchID baseIndex am i :
  registry_frame am (AddToQueue_step E commands batchID baseIndex am i).
Proof.
  unfold AddToQueue_step. destruct (commands !! _) as [cmd|];
    [|apply registry_frame_refl].
  pose proof (saveQueueItemToDB_quiet E
                (QueueItem.mk 0 (int_wrap (baseIndex + Z.of_nat i)) cmd "pending"
                   "" 0 0 batchID "") am) as Hs.
  destruct (saveQueueItemToDB E _ am) as [id am1]. simpl in Hs.
  eapply registry_frame_trans;
    [exact (quiet_registry_frame _ _ Hs)|apply append_item_frame].
Qed.

Lemma AddToQueue_loop_frame commands batchID baseIndex l : ∀ am,
  registry_frame am (foldl (AddToQueue_step E commands batchID baseIndex) am l).
Proof.
  induction l as [|i l IH]; intros am; simpl; [apply registry_frame_refl|].
  eapply registry_frame_trans; [apply AddToQueue_step_frame|apply IH].
Qed.

Lemma AddToQueue_frame commands am : registry_frame am (AddToQueue E commands am).
Proof.
  unfold AddToQueue, now. cbv beta iota zeta.
  eapply registry_frame_trans; [|apply quiet_registry_frame, saveLogToDB_quiet].
  eapply registry_frame_trans; [|apply quiet_registry_frame, broadcastMessage_quiet].
  eapply registry_frame_trans; [|apply AddToQueue_loop_frame].
  apply quiet_registry_frame, set_clock_quiet.
Qed.

Lemma AddToQueueWithPriority_frame command priority am :
  registry_frame am (AddToQueueWithPriority E command priority am).
Proof.
  unfold AddToQueueWithPriority.
  pose proof (saveQueueItemToDB_quiet E
                (QueueItem.mk 0 (int_wrap (Z.of_nat (s_len (queue am)) + 1)) command
                   "pending" "" 0 priority "" "") am) as Hs.
  destruct (saveQueueItemToDB E _ am) as [id am1]. simpl in Hs.
  eapply registry_frame_trans; [|apply quiet_registry_frame, broadcastMessage_quiet].
  eapply registry_frame_trans;
    [exact (quiet_registry_frame _ _ Hs)|apply append_item_frame].
Qed.

End Frames.

(** ** Running a command *)

Lemma spawn_on_spawned argv tr l :
  spawn_on argv tr l → spawned l = argv :: spawned tr.
Proof.
  induction 1 as [|e l He _ IH]; [done|].
  unfold spawned in *. simpl. destruct e; try done. by destruct (He argv0).
Qed.

Section Execute.
Context (E : Env).

Lemma ExecuteCommand_terminated agentID command am :
  terminated am = true →
  ExecuteCommand E agentID command am
  = (CommandResult.mk agentID command "" "System terminated by <END!> signal" 0 0 "",
     am).
Proof. intros Hterm. unfold ExecuteCommand. by rewrite Hterm. Qed.

(** [ExecuteCommand] for an id that the registry does not hold, spelled out. *)
Lemma ExecuteCommand_absent agentID command am :
  terminated am = false → agents am !! agentID = None →
  let status := Broadcast (Message.mk "agent_status" (PAgent None)) in
  let argv := shell_argv E command in
  let out := CombinedOutput E (status :: trace am) argv in
  let result :=
    CommandResult.mk agentID command (p_output out) (error_text (p_err out))
      (exit_code (p_err out))
      ((timeNow E (S (S (clock am))) - timeNow E (clock am)) `quot` 1000000)
      (formatRFC3339 E (timeNow E (S (clock am)))) in
  let entry :=
    LogEntry.mk agentID (if exit_code (p_err out) =? 0 then "info" else "error")
      "Command executed" (shell_command command) (p_output out)
      (exit_code (p_err out)) (CommandResult.Duration result) in
  ExecuteCommand E agentID command am
  = (result,
     set_clock (S (S (S (S (clock am)))))
       (set_trace
          (status :: Broadcast (Message.mk "command_result" (PResult result))
             :: LogFile result
             :: (if db am then [SaveLog entry] else [])
             ++ Spawn argv :: status :: trace am)
          am)).
Proof.
  intros Hterm Hag. unfold ExecuteCommand, shell_argv, shell_command, validateCommand.
  rewrite Hterm, Hag.
  destruct (HasPrefix command "RUN ") eqn:Hpre; simpl;
    destruct (windows E); unfold_io; by destruct_am am.
Qed.

(** [ExecuteCommand] writes agent records, the clock and the trace. *)
Lemma ExecuteCommand_frame agentID command am :
  queue_frame am (ExecuteCommand E agentID command am).2.
Proof.
  unfold queue_frame.
  destruct am as [ag hp q arrs mx rn [] [] cl tr]; try done;
    unfold ExecuteCommand, validateCommand; cbn [agents terminated];
    destruct (ag !! agentID) as [p|]; destruct (HasPrefix command "RUN ");
    run_io; done.
Qed.

(** While the manager is not terminated, every call starts the shell once, on
    the text of the command less a leading [RUN ], and reports how that
    process, started on the trace of that moment, ended. *)
Lemma ExecuteCommand_spawns agentID command am :
  terminated am = false →
  ∃ tr,
    let out := CombinedOutput E tr (shell_argv E command) in
    let '(result, am') := ExecuteCommand E agentID command am in
    spawn_on (shell_argv E command) tr (trace am') ∧
    spawned tr = spawned (trace am) ∧
    CommandResult.Output result = p_output out ∧
    CommandResult.Error result = error_text (p_err out) ∧
    CommandResult.ExitCode result = exit_code (p_err out).
Proof.
  intros Hterm. unfold shell_argv, shell_command.
  destruct am as [ag hp q arrs mx rn tm [] cl tr]; simpl in Hterm; subst tm;
    unfold ExecuteCommand, validateCommand; cbn [agents terminated];
    destruct (ag !! agentID) as [p|]; destruct (HasPrefix command "RUN ");
    destruct (windows E); run_io; eexists;
    (split_and!;
     [repeat first [apply spawn_here | apply spawn_before; [intros ?; discriminate|]]
     |reflexivity..]).
Qed.

End Execute.

(** ** Sequences of operations *)

Lemma settings_frame_refl am : settings_frame am am.
Proof. by unfold settings_frame. Qed.

Lemma settings_frame_trans am1 am2 am3 :
  settings_frame am1 am2 → settings_frame am2 am3 → settings_frame am1 am3.
Proof.
  intros (?&?&?&?&?) (?&?&?&?&?). unfold settings_frame. split_and!; congruence.
Qed.

Lemma registry_settings_frame am am' : registry_frame am am' → settings_frame am am'.
Proof. intros (?&?&?&?&?&?). by unfold settings_frame. Qed.

Lemma queue_settings_frame am am' : queue_frame am am' → settings_frame am am'.
Proof. intros (?&?&?&?&?&?&?). by unfold settings_frame. Qed.

Section Sequences.
Context (E : Env).

Lemma loop_body_frame agentID am : settings_frame am (loop_body E agentID am).
Proof.
  unfold loop_body.
  pose proof (GetNextQueueItem_frame am) as Hnext.
  destruct (GetNextQueueItem am) as [[item|] am1]; simpl in Hnext.
  - set (am2 := store_item _ _ am1). set (am3 := updateQueueItemInDB _ am2).
    set (cmd := QueueItem.Command _).
    pose proof (ExecuteCommand_frame E agentID cmd am3) as Hexec.
    destruct (ExecuteCommand E agentID cmd am3) as [result am4]. simpl in Hexec.
    eapply settings_frame_trans; [apply registry_settings_frame, Hnext|].
    eapply settings_frame_trans; [apply registry_settings_frame, store_item_frame|].
    eapply settings_frame_trans;
      [apply registry_settings_frame, quiet_registry_frame,
         updateQueueItemInDB_quiet|].
    eapply settings_frame_trans; [apply queue_settings_frame, Hexec|].
    apply registry_settings_frame, CompleteQueueItem_frame.
  - by apply registry_settings_frame.
Qed.

Lemma loop_turn_frame agentID am am' :
  loop_turn E agentID am = Some am' → settings_frame am am'.
Proof.
  unfold loop_turn. destruct (loop_guard am); [|done].
  intros [= <-]. apply loop_body_frame.
Qed.

(** [AddAgent] and [RemoveAgent] write the registry and nothing of the
    settings. *)
Lemma AddAgent_settings fuel name am r am' :
  AddAgent E fuel name am = Done (r, am') →
  maxAgents am' = maxAgents am ∧ running am' = running am ∧
  terminated am' = terminated am ∧ db am' = db am.
Proof.
  unfold AddAgent. destruct (_ <=? _); [by intros [= <- <-]|].
  destruct (free_id _ _ _) as [id|]; [|done].
  intros [= <- <-]. destruct am as [ag hp q arrs mx rn tm [] cl tr]; by run_io.
Qed.

Lemma RemoveAgent_settings id am :
  maxAgents (RemoveAgent id am).2 = maxAgents am ∧
  running (RemoveAgent id am).2 = running am ∧
  terminated (RemoveAgent id am).2 = terminated am ∧
  db (RemoveAgent id am).2 = db am ∧
  (size (agents (RemoveAgent id am).2) ≤ size (agents am))%nat.
Proof.
  unfold RemoveAgent. destruct (agents am !! id) as [p|] eqn:Hp; [|done].
  destruct am as [ag hp q arrs mx rn tm [] cl tr]; run_io; simpl in *;
    split_and!; try done; rewrite map_size_delete, Hp; lia.
Qed.

(** Once set, [terminated] stays set. *)
Lemma apply_op_terminated fuel op am am' :
  terminated am = true → apply_op E fuel op am = Done am' → terminated am' = true.
Proof.
  intros Hterm. destruct op; simpl.
  - destruct (AddAgent E fuel name am) as [[r am1]|] eqn:Hadd; [|done].
    intros [= <-]. apply AddAgent_settings in Hadd as (_&_&->&_). done.
  - intros [= <-]. by destruct (RemoveAgent_settings id am) as (_&_&->&_).
  - intros [= <-]. by destruct (AddToQueue_frame E commands am) as (_&_&_&_&->&_).
  - intros [= <-].
    by destruct (AddToQueueWithPriority_frame E command priority am)
      as (_&_&_&_&->&_).
  - intros [= <-]. by destruct (RemoveFromQueue_frame index am) as (_&_&_&_&->&_).
  - intros [= <-]. by destruct (GetNextQueueItem_frame am) as (_&_&_&_&->&_).
  - intros [= <-].
    by destruct (CompleteQueueItem_frame index output success am) as (_&_&_&_&->&_).
  - intros [= <-].
    by destruct (ExecuteCommand_frame E agentID command am) as (_&_&_&_&_&->&_).
  - intros [= <-]. destruct (loop_turn E agentID am) as [am1|] eqn:Hturn; [|done].
    simpl. by destruct (loop_turn_frame _ _ _ Hturn) as (_&_&_&->&_).
  - intros [= <-]. by apply GracefulTerminate_frame.
  - intros [= <-]. by destruct (loop_body_frame agentID am) as (_&_&_&->&_).
  - intros [= <-]. by destruct (handleMessage_stop_frame am) as (_&_&_&_&_&->&_).
Qed.

Lemma run_terminated fuel ops : ∀ am am',
  terminated am = true → run E fuel ops am = Done am' → terminated am' = true.
Proof.
  induction ops as [|op ops IH]; intros am am' Hterm; simpl.
  - by intros [= <-].
  - destruct (apply_op E fuel op am) as [am1|] eqn:Hop; [|done].
    apply IH. by eapply apply_op_terminated.
Qed.

End Sequences.

(** ** The claims about running commands and termination *)

(** C10: for an agent id that the registry does not hold, on a manager that
    is not terminated, [ExecuteCommand] still starts the shell on the command,
    exactly once, and returns the result of that run; the registry and every
    agent record in it stay as they were. *)
Theorem ExecuteCommand_unknown_agent (E : Env) agentID command am :
  terminated am = false →
  agents am !! agentID = None →
  let argv := shell_argv E command in
  let out :=
    CombinedOutput E
      (Broadcast (Message.mk "agent_status" (PAgent None)) :: trace am) argv in
  let '(result, am') := ExecuteCommand E agentID command am in
  spawned (trace am') = argv :: spawned (trace am) ∧
  CommandResult.AgentID result = agentID ∧
  CommandResult.Command result = command ∧
  CommandResult.Output result = p_output out ∧
  CommandResult.Error result = error_text (p_err out) ∧
  CommandResult.ExitCode result = exit_code (p_err out) ∧
  agents am' = agents am ∧
  agent_heap am' = agent_heap am.
Proof.
  intros Hterm Hag. cbv zeta. rewrite ExecuteCommand_absent by done.
  split_and!; try reflexivity.
  cbn [trace set_trace set_clock]. by destruct (db am).
Qed.

Lemma ExecuteCommand_unknown_agent_witness :
  let '(result, am') := ExecuteCommand env_ok 5 "RUN echo hi" am_alpha in
  spawned (trace am') = [["sh"; "-c"; "echo hi"]] ∧
  CommandResult.ExitCode result = 0 ∧
  agent_heap am' !! 0%nat = Some agent_alpha.
Proof.
  pose proof (ExecuteCommand_unknown_agent env_ok 5 "RUN echo hi" am_alpha
                eq_refl eq_refl) as H.
  cbv zeta in H. destruct (ExecuteCommand env_ok 5 "RUN echo hi" am_alpha) as [r am'].
  destruct H as (Hsp & _ & _ & _ & _ & Hexit & _ & Hheap).
  split_and!; [exact Hsp|exact Hexit|by rewrite Hheap].
Defined.

(** C1, as the code has it: a command without the prefix [RUN ] is not
    rejected.  On a manager that is not terminated the shell is started once,
    on the text as it stands, and the result carries the exit code and the
    error of that process, so exit code 0 and no error when it succeeds. *)
Theorem ExecuteCommand_runs_unprefixed (E : Env) agentID command am :
  terminated am = false →
  HasPrefix command "RUN " = false →
  ∃ tr,
    let argv := if windows E then ["cmd"; "/C"; command] else ["sh"; "-c"; command] in
    let out := CombinedOutput E tr argv in
    let '(result, am') := ExecuteCommand E agentID command am in
    spawn_on argv tr (trace am') ∧
    spawned (trace am') = argv :: spawned (trace am) ∧
    CommandResult.Error result = error_text (p_err out) ∧
    CommandResult.ExitCode result = exit_code (p_err out).
Proof.
  intros Hterm Hpre.
  destruct (ExecuteCommand_spawns E agentID command am Hterm) as [tr H].
  exists tr. cbv zeta in *. unfold shell_argv, shell_command in H. rewrite Hpre in H.
  destruct (ExecuteCommand E agentID command am) as [result am'].
  destruct H as (Hon & Htr & _ & Herr & Hcode).
  split_and!; [done| |done|done].
  rewrite (spawn_on_spawned _ _ _ Hon). by rewrite Htr.
Qed.

Lemma ExecuteCommand_runs_unprefixed_witness :
  let '(result, am') := ExecuteCommand env_ok 1 "echo hi" am_alpha in
  spawned (trace am') = [["sh"; "-c"; "echo hi"]] ∧
  CommandResult.Error result = "" ∧
  CommandResult.ExitCode result = 0.
Proof.
  destruct (ExecuteCommand_runs_unprefixed env_ok 1 "echo hi" am_alpha
              eq_refl eq_refl) as [tr H].
  cbv zeta in H. destruct (ExecuteCommand env_ok 1 "echo hi" am_alpha) as [r am'].
  destruct H as (_ & Hsp & Herr & Hcode). split_and!; [exact Hsp|exact Herr|exact Hcode].
Defined.

(** After [GracefulTerminate("<END!>")], and whatever operations follow it
    (the body of a loop and the stop message included), [terminated] stays
    set; [ExecuteCommand] answers every agent id and every command with the
    fixed error and hands the manager back untouched (no subprocess, no write
    to an agent or to a queue item); and a loop that stands at its guard finds
    it false: it ends without claiming from the queue. *)
Theorem terminated_refuses (E : Env) fuel ops am am1 agentID command turns :
  run E fuel ops (GracefulTerminate "<END!>" am) = Done am1 →
  terminated am1 = true ∧
  ExecuteCommand E agentID command am1
  = (CommandResult.mk agentID command "" "System terminated by <END!> signal" 0 0 "",
     am1) ∧
  loop_turn E agentID am1 = None ∧
  StartAgentLoop E (S turns) agentID am1 = Done am1.
Proof.
  intros Hrun.
  assert (terminated am1 = true) as Hterm.
  { eapply run_terminated; [|exact Hrun]. unfold GracefulTerminate. simpl.
    unfold_io. by destruct_am am. }
  assert (loop_turn E agentID am1 = None) as Hturn.
  { unfold loop_turn, loop_guard. rewrite Hterm. by rewrite andb_false_r. }
  split_and!; [done|by apply ExecuteCommand_terminated|done|].
  simpl. by rewrite Hturn.
Qed.

Lemma terminated_refuses_witness :
  let am1 := AddToQueueWithPriority env_ok "RUN echo c" 2
               (GracefulTerminate "<END!>" am_queued) in
  ExecuteCommand env_ok 1 "RUN echo hi" am1
  = (CommandResult.mk 1 "RUN echo hi" "" "System terminated by <END!> signal" 0 0 "",
     am1) ∧
  StartAgentLoop env_ok 3 1 am1 = Done am1.
Proof.
  cbv zeta.
  destruct (terminated_refuses env_ok 0
              [OpAddToQueueWithPriority "RUN echo c" 2] am_queued
              (AddToQueueWithPriority env_ok "RUN echo c" 2
                 (GracefulTerminate "<END!>" am_queued))
              1 "RUN echo hi" 2 eq_refl) as (_ & Hexec & _ & Hloop).
  split; [exact Hexec|exact Hloop].
Defined.

(** ** The claims about the registry *)

Section Bounded.
Context (E : Env).

Lemma apply_op_bounded fuel op am :
  int_range (maxAgents am) →
  Z.of_nat (size (agents am)) ≤ maxAgents am →
  maxAgents am ≤ Z.of_nat fuel →
  ∃ am', apply_op E fuel op am = Done am' ∧
         maxAgents am' = maxAgents am ∧
         Z.of_nat (size (agents am')) ≤ maxAgents am'.
Proof.
  intros Hrange Hsize Hfuel.
  assert (∀ am', settings_frame am am' →
            maxAgents am' = maxAgents am ∧
            Z.of_nat (size (agents am')) ≤ maxAgents am') as Hkeep.
  { intros am' (-> & -> & _). done. }
  destruct op; simpl.
  - destruct (Z.le_gt_cases (maxAgents am) (Z.of_nat (size (agents am)))) as [Hfull|Hroom].
    + rewrite AddAgent_full by done. eauto.
    + destruct (AddAgent_room E fuel name am) as
        (id & p & am' & -> & (_ & Hfree & _) & _ & Hag & _ & Hmax & _);
        [done|lia|lia|].
      exists am'. split_and!; [done|done|].
      rewrite Hag, map_size_insert_None, Hmax by done. lia.
  - eexists. split; [done|].
    destruct (RemoveAgent_settings id am) as (-> & _ & _ & _ & Hle). split; [done|lia].
  - eexists. split; [done|].
    apply Hkeep, registry_settings_frame, AddToQueue_frame.
  - eexists. split; [done|].
    apply Hkeep, registry_settings_frame, AddToQueueWithPriority_frame.
  - eexists. split; [done|].
    apply Hkeep, registry_settings_frame, RemoveFromQueue_frame.
  - eexists. split; [done|].
    apply Hkeep, registry_settings_frame, GetNextQueueItem_frame.
  - eexists. split; [done|].
    apply Hkeep, registry_settings_frame, CompleteQueueItem_frame.
  - eexists. split; [done|].
    apply Hkeep, queue_settings_frame, ExecuteCommand_frame.
  - eexists. split; [done|].
    destruct (loop_turn E agentID am) as [am1|] eqn:Hturn; simpl.
    + eapply Hkeep, loop_turn_frame, Hturn.
    + done.
  - eexists. split; [done|].
    destruct (GracefulTerminate_frame signal am) as (-> & _ & -> & _). done.
  - eexists. split; [done|]. apply Hkeep, loop_body_frame.
  - eexists. split; [done|].
    destruct (handleMessage_stop_frame am) as (-> & _ & -> & _). done.
Qed.

Lemma run_bounded fuel ops : ∀ am,
  int_range (maxAgents am) →
  Z.of_nat (size (agents am)) ≤ maxAgents am →
  maxAgents am ≤ Z.of_nat fuel →
  ∃ am', run E fuel ops am = Done am' ∧
         maxAgents am' = maxAgents am ∧
         Z.of_nat (size (agents am')) ≤ maxAgents am'.
Proof.
  induction ops as [|op ops IH]; intros am Hrange Hsize Hfuel; simpl; [eauto|].
  destruct (apply_op_bounded fuel op am) as (am1 & -> & Hmax & Hsize1); [done..|].
  destruct (IH am1) as (am' & Hrun & Hmax' & Hsize'); [congruence|done|congruence|].
  exists am'. split_and!; [done|congruence|done].
Qed.

End Bounded.

(** C5: a new manager allows ten agents; from a registry within its maximum,
    every sequence of operations, [AddAgent] and [RemoveAgent] among them,
    runs to its end and leaves a registry within the same maximum; and
    [AddAgent] on a registry at or above the maximum returns nil and leaves
    the manager exactly as it was. *)
Theorem agent_count_within_maximum (E : Env) fuel ops am :
  int_range (maxAgents am) →
  Z.of_nat (size (agents am)) ≤ maxAgents am →
  maxAgents am ≤ Z.of_nat fuel →
  (∀ connected, maxAgents (NewAgentManager connected) = 10 ∧
                agents (NewAgentManager connected) = ∅) ∧
  (∃ am', run E fuel ops am = Done am' ∧
          maxAgents am' = maxAgents am ∧
          Z.of_nat (size (agents am')) ≤ maxAgents am) ∧
  (∀ name am0, maxAgents am0 ≤ Z.of_nat (size (agents am0)) →
               AddAgent E fuel name am0 = Done (None, am0)).
Proof.
  intros Hrange Hsize Hfuel. split_and!.
  - done.
  - destruct (run_bounded E fuel ops am) as (am' & Hrun & Hmax & Hsize'); [done..|].
    exists am'. split_and!; [done|done|congruence].
  - intros name am0. apply AddAgent_full.
Qed.

Lemma agent_count_within_maximum_witness :
  ∃ am', run env_ok 10 twelve_agents (NewAgentManager false) = Done am' ∧
         Z.of_nat (size (agents am')) ≤ 10.
Proof.
  destruct (agent_count_within_maximum env_ok 10 twelve_agents (NewAgentManager false))
    as (_ & (am' & Hrun & _ & Hsize) & _).
  - unfold int_range, int_min, int_max. simpl. lia.
  - simpl. rewrite map_size_empty. lia.
  - simpl. lia.
  - exists am'. split; [exact Hrun|exact Hsize].
Defined.

(** C6, amended: on a registry below its maximum, [AddAgent] succeeds and
    gives the new agent the smallest id from 1 on that no live agent has (so
    an id freed by [RemoveAgent] is used again; 0 is never given), with status
    idle and no current task. *)
Theorem AddAgent_smallest_positive_id (E : Env) fuel name am :
  int_range (maxAgents am) →
  Z.of_nat (size (agents am)) < maxAgents am →
  (size (agents am) < fuel)%nat →
  ∃ p am' a,
    AddAgent E fuel name am = Done (Some p, am') ∧
    load_agent am' p = Some a ∧
    agents am' = <[Agent.ID a := p]> (agents am) ∧
    smallest_unused 1 (agents am) (Agent.ID a) ∧
    Agent.Name a = name ∧
    Agent.Status a = "idle" ∧
    Agent.CurrentTask a = "" ∧
    Agent.TasksDone a = 0 ∧
    Agent.TasksFailed a = 0.
Proof.
  intros Hrange Hroom Hfuel.
  destruct (AddAgent_room E fuel name am Hrange Hroom Hfuel)
    as (id & p & am' & Hadd & Hid & _ & Hag & Hheap & _).
  exists p, am'. eexists. split; [exact Hadd|].
  split; [unfold load_agent; rewrite Hheap; apply lookup_insert_eq|].
  by split_and!.
Qed.

(** After agent 1 of three is removed, the next agent is given id 1 again. *)
Lemma AddAgent_smallest_positive_id_witness :
  ∃ p am' a,
    AddAgent env_ok 3 "d"
      (RemoveAgent 1 (set_agents {[ 1 := 0%nat; 2 := 1%nat; 3 := 2%nat ]} am_alpha)).2
    = Done (Some p, am') ∧
    load_agent am' p = Some a ∧ Agent.ID a = 1 ∧ Agent.Status a = "idle".
Proof.
  destruct (AddAgent_smallest_positive_id env_ok 3 "d"
              (RemoveAgent 1
                 (set_agents {[ 1 := 0%nat; 2 := 1%nat; 3 := 2%nat ]} am_alpha)).2)
    as (p & am' & a & Hadd & Hload & _ & Hid & _ & Hst & _).
  - unfold int_range, int_min, int_max. vm_compute. split; discriminate.
  - vm_compute. reflexivity.
  - vm_compute. lia.
  - exists p, am', a. split_and!; [exact Hadd|exact Hload| |exact Hst].
    eapply smallest_unused_unique; [exact Hid|].
    split_and!; [lia|reflexivity|intros k Hk; lia].
Defined.

(** C6 as stated fails: on the empty registry the new agent gets id 1, and 1
    is not the smallest non-negative integer not in use, since 0 is free. *)
Lemma AddAgent_never_assigns_zero :
  ∃ p am' a,
    AddAgent env_ok 1 "alpha" (NewAgentManager false) = Done (Some p, am') ∧
    load_agent am' p = Some a ∧
    Agent.ID a = 1 ∧
    ¬ smallest_unused 0 (agents (NewAgentManager false)) (Agent.ID a).
Proof.
  eexists _, _, _. split_and!; [reflexivity|reflexivity|reflexivity|].
  intros (_ & _ & Hall). destruct (Hall 0) as [x Hx]; [simpl; lia|].
  vm_compute in Hx. discriminate.
Qed.

(** ** The queue, seen as the list of its items *)

Lemma quiet_queue_items am am' : quiet am am' → queue_items am' = queue_items am.
Proof. intros (_&_&Hq&Ha&_). unfold queue_items. by rewrite Hq, Ha. Qed.

Lemma quiet_wf_queue am am' : quiet am am' → wf_queue am → wf_queue am'.
Proof. intros (_&_&Hq&Ha&_). unfold wf_queue. by rewrite Hq, Ha. Qed.

Lemma wf_queue_length am : wf_queue am → length (queue_items am) = s_len (queue am).
Proof. unfold wf_queue, queue_items, read_slice. rewrite length_take. lia. Qed.

(** [GetNextQueueItem]: what it returns and what it writes. *)
Lemma GetNextQueueItem_spec am :
  match GetNextQueueItem am with
  | (Some p, am') =>
      p_arr p = s_ptr (queue am) ∧
      best_pending (queue_items am) (p_idx p) ∧
      (∃ q, queue_items am !! p_idx p = Some q ∧ -1 < QueueItem.Priority q) ∧
      queue am' = queue am ∧
      queue_items am' = alter (QueueItem.set_Status "running") (p_idx p) (queue_items am)
  | (None, am') =>
      am' = am ∧
      ∀ j q, queue_items am !! j = Some q → pending q → QueueItem.Priority q ≤ -1
  end.
Proof.
  unfold GetNextQueueItem.
  destruct (scan_best (queue_items am) 0 None (-1)) as [i|] eqn:Hscan.
  - apply scan_best_Some in Hscan as [Hbest Hq]. cbn [p_arr p_idx].
    split_and!; [done|done|done|..].
    + by destruct (updateQueueItemInDB_quiet
                     (default QueueItem.zero
                        (load_item
                           (arrays (store_item {| p_arr := s_ptr (queue am); p_idx := i |}
                                      (QueueItem.set_Status "running") am))
                           {| p_arr := s_ptr (queue am); p_idx := i |}))
                     (store_item {| p_arr := s_ptr (queue am); p_idx := i |}
                        (QueueItem.set_Status "running") am)) as (_&_&->&_).
    + rewrite (quiet_queue_items _ _ (updateQueueItemInDB_quiet _ _)).
      apply store_item_items.
  - split; [done|]. by apply scan_best_None.
Qed.

(** On a queue whose pending items all have a priority of 0 or more,
    [GetNextQueueItem] serves the item that the specification names, and
    returns nil only when nothing is pending. *)
Lemma GetNextQueueItem_nonnegative am :
  (∀ j q, queue_items am !! j = Some q → pending q → 0 ≤ QueueItem.Priority q) →
  match GetNextQueueItem am with
  | (Some p, am') =>
      best_pending (queue_items am) (p_idx p) ∧
      queue_items am' = alter (QueueItem.set_Status "running") (p_idx p) (queue_items am)
  | (None, am') =>
      am' = am ∧ ∀ j q, queue_items am !! j = Some q → ¬ pending q
  end.
Proof.
  intros Hnn. pose proof (GetNextQueueItem_spec am) as H.
  destruct (GetNextQueueItem am) as [[p|] am'].
  - by destruct H as (_ & ? & _ & _ & ?).
  - destruct H as [-> Hlow]. split; [done|].
    intros j q Hj Hq. specialize (Hnn j q Hj Hq). specialize (Hlow j q Hj Hq). lia.
Qed.

Lemma RemoveFromQueue_items index am i q :
  wf_queue am →
  find_index index (queue_items am) 0 = Some (i, q) →
  (RemoveFromQueue index am).1 = true ∧
  queue_items (RemoveFromQueue index am).2 = delete i (queue_items am) ∧
  wf_queue (RemoveFromQueue index am).2.
Proof.
  intros Hwf Hfind. unfold RemoveFromQueue. rewrite Hfind. cbn [fst snd].
  assert (i < s_len (queue am))%nat as Hi.
  { apply find_index_Some in Hfind as (j & -> & Hj & _).
    apply lookup_lt_Some in Hj. pose proof (queue_items_length am). lia. }
  pose proof (deleteQueueItemFromDB_quiet (QueueItem.ID q) am) as Hdel.
  set (am1 := deleteQueueItemFromDB (QueueItem.ID q) am) in *.
  assert (wf_queue am1) as Hwf1 by by eapply quiet_wf_queue.
  assert (i < s_len (queue am1))%nat as Hi1.
  { destruct Hdel as (_&_&->&_). done. }
  split_and!; [done|..].
  - rewrite (quiet_queue_items _ _ (broadcastMessage_quiet _ _)).
    rewrite remove_at_items by done. by rewrite (quiet_queue_items _ _ Hdel).
  - eapply quiet_wf_queue; [apply broadcastMessage_quiet|]. by apply remove_at_wf.
Qed.

Section QueueItems.
Context (E : Env).

Lemma AddToQueueWithPriority_items command priority am :
  wf_queue am →
  ∃ id,
    queue_items (AddToQueueWithPriority E command priority am)
    = queue_items am
        ++ [QueueItem.mk id (int_wrap (Z.of_nat (s_len (queue am)) + 1)) command
              "pending" "" 0 priority "" ""] ∧
    wf_queue (AddToQueueWithPriority E command priority am).
Proof.
  intros Hwf. unfold AddToQueueWithPriority.
  pose proof (saveQueueItemToDB_quiet E
                (QueueItem.mk 0 (int_wrap (Z.of_nat (s_len (queue am)) + 1)) command
                   "pending" "" 0 priority "" "") am) as Hs.
  destruct (saveQueueItemToDB E _ am) as [id am1]. cbn [snd] in Hs.
  exists id. split.
  - rewrite (quiet_queue_items _ _ (broadcastMessage_quiet _ _)).
    rewrite append_item_items by by eapply quiet_wf_queue.
    by rewrite (quiet_queue_items _ _ Hs).
  - eapply quiet_wf_queue; [apply broadcastMessage_quiet|].
    apply append_item_wf. by eapply quiet_wf_queue.
Qed.

Lemma AddToQueue_step_items commands batchID baseIndex am i :
  wf_queue am →
  let am' := AddToQueue_step E commands batchID baseIndex am i in
  wf_queue am' ∧
  match commands !! Sprintf_d (Z.of_nat i) with
  | Some cmd => ∃ q, queue_items am' = queue_items am ++ [q] ∧
                     enqueued baseIndex batchID q (i, cmd)
  | None => queue_items am' = queue_items am
  end.
Proof.
  intros Hwf. cbv zeta. unfold AddToQueue_step.
  destruct (commands !! Sprintf_d (Z.of_nat i)) as [cmd|]; [|done].
  pose proof (saveQueueItemToDB_quiet E
                (QueueItem.mk 0 (int_wrap (baseIndex + Z.of_nat i)) cmd "pending"
                   "" 0 0 batchID "") am) as Hs.
  destruct (saveQueueItemToDB E _ am) as [id am1]. cbn [snd] in Hs.
  assert (wf_queue am1) as Hwf1 by by eapply quiet_wf_queue.
  split; [by apply append_item_wf|].
  eexists. split.
  - rewrite append_item_items by done. by rewrite (quiet_queue_items _ _ Hs).
  - done.
Qed.

Lemma AddToQueue_loop_items commands batchID baseIndex l : ∀ am,
  wf_queue am →
  let am' := foldl (AddToQueue_step E commands batchID baseIndex) am l in
  wf_queue am' ∧
  ∃ news, queue_items am' = queue_items am ++ news ∧
          Forall2 (enqueued baseIndex batchID) news
            (omap (λ i, (λ cmd, (i, cmd)) <$> commands !! Sprintf_d (Z.of_nat i)) l).
Proof.
  induction l as [|i l IH]; intros am Hwf; cbv zeta; simpl.
  - split; [done|]. exists []. by rewrite app_nil_r.
  - destruct (AddToQueue_step_items commands batchID baseIndex am i Hwf) as [Hwf1 Hstep].
    cbv zeta in Hstep.
    destruct (IH _ Hwf1) as (Hwf' & news & Hnews & Hall). cbv zeta in Hwf', Hnews.
    split; [done|].
    destruct (commands !! Sprintf_d (Z.of_nat i)) as [cmd|]; simpl.
    + destruct Hstep as (q & Hq & Henq). exists (q :: news). split.
      * by rewrite Hnews, Hq, <- app_assoc.
      * by constructor.
    + exists news. split; [by rewrite Hnews, Hstep|done].
Qed.

Lemma AddToQueue_items commands am :
  wf_queue am →
  wf_queue (AddToQueue E commands am) ∧
  ∃ news,
    queue_items (AddToQueue E commands am) = queue_items am ++ news ∧
    Forall2 (enqueued (Z.of_nat (s_len (queue am)))
               ("batch_" +:+ Sprintf_d (timeNow E (clock am))))
            news (slots commands).
Proof.
  intros Hwf. unfold AddToQueue, now. cbv beta iota zeta.
  set (am0 := set_clock (S (clock am)) am).
  assert (quiet am am0) as H0 by apply set_clock_quiet.
  destruct (AddToQueue_loop_items commands
              ("batch_" +:+ Sprintf_d (timeNow E (clock am)))
              (Z.of_nat (s_len (queue am0))) (seq 1 (size commands)) am0)
    as (Hwf1 & news & Hnews & Hall); [by eapply quiet_wf_queue|].
  cbv zeta in Hwf1, Hnews.
  split.
  - eapply quiet_wf_queue; [|exact Hwf1]. quiet.
  - exists news. split; [|exact Hall].
    rewrite (quiet_queue_items _ _ (saveLogToDB_quiet _ _)).
    rewrite (quiet_queue_items _ _ (broadcastMessage_quiet _ _)).
    by rewrite Hnews, (quiet_queue_items _ _ H0).
Qed.

End QueueItems.

(** ** The claims about the queue *)

(** C2, where the code departs from it: a pending item whose priority is
    negative is never served.  After [AddToQueueWithPriority(command, -1)] on
    a new manager the queue holds one pending item, and [GetNextQueueItem]
    returns nil and changes nothing. *)
Theorem GetNextQueueItem_skips_negative_priority (E : Env) command connected :
  let am := AddToQueueWithPriority E command (-1) (NewAgentManager connected) in
  (∃ q, queue_items am = [q] ∧ pending q ∧ QueueItem.Priority q = -1) ∧
  GetNextQueueItem am = (None, am).
Proof.
  cbv zeta.
  destruct (AddToQueueWithPriority_items E command (-1) (NewAgentManager connected))
    as (id & Hitems & _); [apply NewAgentManager_wf|].
  change (queue_items (NewAgentManager connected)) with (@nil QueueItem.t) in Hitems.
  simpl in Hitems. split.
  - eexists. by split_and!.
  - unfold GetNextQueueItem. by rewrite Hitems.
Qed.

(** [GetNextBatch], the other way to claim work, does serve that item. *)
Example GetNextBatch_serves_negative_priority :
  let am := AddToQueueWithPriority env_ok "RUN echo a" (-1) (NewAgentManager false) in
  (GetNextQueueItem am).1 = None ∧
  QueueItem.Status <$> (GetNextBatch 5 am).1 = ["running"] ∧
  QueueItem.Priority <$> (GetNextBatch 5 am).1 = [-1].
Proof. vm_compute. done. Qed.

(** The order of the specification, on priorities 3, 1, 3, 2: the items are
    served by index 1, 3, 4, 2, and then nothing is left to serve. *)
Example GetNextQueueItem_order_3_1_3_2 :
  let am0 := AddToQueueWithPriority env_ok "d" 2
               (AddToQueueWithPriority env_ok "c" 3
                  (AddToQueueWithPriority env_ok "b" 1
                     (AddToQueueWithPriority env_ok "a" 3 (NewAgentManager false)))) in
  let '(p1, am1) := GetNextQueueItem am0 in
  let '(p2, am2) := GetNextQueueItem am1 in
  let '(p3, am3) := GetNextQueueItem am2 in
  let '(p4, am4) := GetNextQueueItem am3 in
  let '(p5, am5) := GetNextQueueItem am4 in
  (λ p, QueueItem.Index <$> (p ≫= load_item (arrays am5))) <$> [p1; p2; p3; p4; p5]
  = [Some 1; Some 3; Some 4; Some 2; None] ∧
  QueueItem.Status <$> queue_items am5 = ["running"; "running"; "running"; "running"].
Proof. vm_compute. done. Qed.

(** C3, where the code departs from it: an index is given out again after a
    removal.  Two commands are enqueued and get the indices 1 and 2; the item
    with index 1 is removed; the next command enqueued gets index 2, which
    the item still in the queue carries. *)
Theorem queue_index_reused_after_removal (E : Env) connected :
  let am1 := AddToQueue E two_commands (NewAgentManager connected) in
  let am2 := (RemoveFromQueue 1 am1).2 in
  let am3 := AddToQueue E one_command am2 in
  QueueItem.Index <$> queue_items am1 = [1; 2] ∧
  (RemoveFromQueue 1 am1).1 = true ∧
  QueueItem.Index <$> queue_items am2 = [2] ∧
  QueueItem.Index <$> queue_items am3 = [2; 2] ∧
  QueueItem.Command <$> queue_items am3 = ["RUN echo b"; "RUN echo c"].
Proof.
  cbv zeta.
  destruct (AddToQueue_items E two_commands (NewAgentManager connected))
    as (Hwf1 & news & Hitems1 & Hnews); [apply NewAgentManager_wf|].
  set (am1 := AddToQueue E two_commands (NewAgentManager connected)) in *.
  change (queue_items (NewAgentManager connected)) with (@nil QueueItem.t) in Hitems1.
  change (slots two_commands) with [(1%nat, "RUN echo a"); (2%nat, "RUN echo b")] in Hnews.
  apply Forall2_cons_inv_r in Hnews as (qa & news' & Hqa & Hnews & ->).
  apply Forall2_cons_inv_r in Hnews as (qb & news'' & Hqb & Hnews & ->).
  apply Forall2_nil_inv_r in Hnews as ->.
  simpl in Hitems1. unfold enqueued in Hqa, Hqb. simpl in Hqa, Hqb.
  change (int_wrap (0 + 1)) with 1 in Hqa. change (int_wrap (0 + 2)) with 2 in Hqb.
  assert (find_index 1 (queue_items am1) 0 = Some (0%nat, qa)) as Hfind.
  { rewrite Hitems1. simpl. by rewrite Hqa. }
  destruct (RemoveFromQueue_items 1 am1 0 qa Hwf1 Hfind) as (Hrm & Hitems2 & Hwf2).
  set (am2 := (RemoveFromQueue 1 am1).2) in *.
  rewrite Hitems1 in Hitems2. simpl in Hitems2.
  destruct (AddToQueue_items E one_command am2 Hwf2) as (_ & news & Hitems3 & Hnews).
  rewrite <- (wf_queue_length am2 Hwf2), Hitems2 in Hnews. simpl in Hnews.
  change (slots one_command) with [(1%nat, "RUN echo c")] in Hnews.
  apply Forall2_cons_inv_r in Hnews as (qc & news' & Hqc & Hnews & ->).
  apply Forall2_nil_inv_r in Hnews as ->.
  unfold enqueued in Hqc. simpl in Hqc. change (int_wrap (1 + 1)) with 2 in Hqc.
  rewrite Hitems1, Hitems2, Hitems3, Hitems2. simpl.
  rewrite Hqa, Hqb, Hqc. done.
Qed.

(** What the reuse leads to: two items carry index 2, and a removal by that
    index takes the older one. *)
Example RemoveFromQueue_ambiguous_index :
  let am3 := AddToQueue env_ok one_command
               (RemoveFromQueue 1
                  (AddToQueue env_ok two_commands (NewAgentManager false))).2 in
  QueueItem.Index <$> queue_items am3 = [2; 2] ∧
  QueueItem.Command <$> queue_items (RemoveFromQueue 2 am3).2 = ["RUN echo c"].
Proof. vm_compute. done. Qed.

Lemma enqueued_commands baseIndex batchID news (sl : list (nat * string)) :
  Forall2 (enqueued baseIndex batchID) news sl →
  QueueItem.Command <$> news = sl.*2 ∧ Forall pending news.
Proof.
  induction 1 as [|q slot news sl Hq _ [IHc IHp]]; [done|].
  unfold enqueued in Hq. split.
  - rewrite !fmap_cons, IHc. by rewrite Hq.
  - constructor; [|done]. unfold pending. by rewrite Hq.
Qed.

Lemma slots_commands (commands : gmap string string) (l : list nat) :
  (omap (λ i, (λ cmd, (i, cmd)) <$> commands !! Sprintf_d (Z.of_nat i)) l).*2
  = omap (λ i, commands !! Sprintf_d (Z.of_nat i)) l.
Proof.
  induction l as [|i l IH]; [done|]. cbn [omap list_omap].
  destruct (commands !! Sprintf_d (Z.of_nat i)); cbn [fmap option_fmap option_map];
    [by rewrite fmap_cons, IH|done].
Qed.

(** C9, amended: [AddToQueue] appends, in this order, the commands that the
    map holds under the keys ["1"], ["2"], ... up to the size of the map, as
    pending items; every other entry is dropped.  A gap in the numbering
    does not end the walk: it costs the entries whose number is above the
    size of the map. *)
Theorem AddToQueue_takes_numbered_slots (E : Env) commands am :
  wf_queue am →
  ∃ news,
    queue_items (AddToQueue E commands am) = queue_items am ++ news ∧
    QueueItem.Command <$> news
    = omap (λ i, commands !! Sprintf_d (Z.of_nat i)) (seq 1 (size commands)) ∧
    Forall pending news.
Proof.
  intros Hwf.
  destruct (AddToQueue_items E commands am Hwf) as (_ & news & Hitems & Hnews).
  exists news. split; [done|].
  apply enqueued_commands in Hnews as [Hcmds Hpend].
  split; [|done]. rewrite Hcmds. apply slots_commands.
Qed.

(** With the keys ["1"] and ["3"] only the first command is enqueued; with
    ["1"], ["3"] and ["4"] the first and the one under ["3"] are. *)
Lemma AddToQueue_takes_numbered_slots_witness :
  QueueItem.Command <$> queue_items (AddToQueue env_ok gap_commands (NewAgentManager false))
  = ["RUN echo a"] ∧
  QueueItem.Command <$>
    queue_items (AddToQueue env_ok wide_gap_commands (NewAgentManager false))
  = ["RUN echo a"; "RUN echo c"].
Proof.
  split.
  - destruct (AddToQueue_takes_numbered_slots env_ok gap_commands (NewAgentManager false))
      as (news & -> & Hcmds & _); [apply NewAgentManager_wf|].
    exact Hcmds.
  - destruct (AddToQueue_takes_numbered_slots env_ok wide_gap_commands
                (NewAgentManager false))
      as (news & -> & Hcmds & _); [apply NewAgentManager_wf|].
    exact Hcmds.
Defined.

(** C9 as stated fails in its last clause: with the keys ["1"], ["3"] and
    ["4"] the command under ["3"], which comes after the gap at 2, is
    enqueued as well. *)
Lemma AddToQueue_enqueues_past_gap :
  QueueItem.Command <$>
    queue_items (AddToQueue env_ok wide_gap_commands (NewAgentManager false))
  = ["RUN echo a"; "RUN echo c"] ∧
  before_gap wide_gap_commands = ["RUN echo a"] ∧
  QueueItem.Command <$>
    queue_items (AddToQueue env_ok wide_gap_commands (NewAgentManager false))
  ≠ before_gap wide_gap_commands.
Proof. split_and!; [by vm_compute|by vm_compute|]. vm_compute. discriminate. Qed.

(** ** The claim about the list queries *)

Lemma CompleteQueueItem_queue index output success am :
  queue (CompleteQueueItem index output success am) = queue am.
Proof.
  unfold CompleteQueueItem. destruct (find_index _ _ _) as [[i item]|]; [|done].
  by destruct (updateQueueItemInDB_quiet
                 (default QueueItem.zero
                    (load_item
                       (arrays
                          (store_item {| p_arr := s_ptr (queue am); p_idx := i |}
                             (QueueItem.set_Output output)
                             (store_item {| p_arr := s_ptr (queue am); p_idx := i |}
                                (QueueItem.set_Status
                                   (if success then "completed" else "failed")) am)))
                       {| p_arr := s_ptr (queue am); p_idx := i |}))
                 (store_item {| p_arr := s_ptr (queue am); p_idx := i |}
                    (QueueItem.set_Output output)
                    (store_item {| p_arr := s_ptr (queue am); p_idx := i |}
                       (QueueItem.set_Status
                          (if success then "completed" else "failed")) am)))
    as (_&_&->&_).
Qed.


(** The record of a registered agent after [ExecuteCommand] has run a
    command for it. *)
Lemma ExecuteCommand_writes_agent (E : Env) agentID command am p :
  terminated am = false →
  agents am !! agentID = Some p →
  ∃ code,
    load_agent (ExecuteCommand E agentID command am).2 p
    = (λ a, finish code (Agent.start command (timeNow E (clock am)) a))
        <$> load_agent am p ∧
    code = CommandResult.ExitCode (ExecuteCommand E agentID command am).1.
Proof.
  intros Hterm Hag.
  destruct am as [ag hp q arrs mx rn tm [] cl tr]; simpl in Hterm, Hag; subst tm;
    unfold ExecuteCommand, validateCommand; cbn [agents terminated]; rewrite Hag;
    destruct (HasPrefix command "RUN "); destruct (windows E); run_io;
    eexists; (split; [|reflexivity]);
    rewrite !lookup_alter_eq; by destruct (hp !! p).
Qed.


(** ** More about running a command *)

Lemma substring_all (s : string) : String.substring 0 (String.length s) s = s.
Proof. induction s as [|c s IH]; [done|]. simpl. by rewrite IH. Qed.

Lemma HasPrefix_RUN (c : string) : HasPrefix ("RUN " +:+ c) "RUN " = true.
Proof. unfold HasPrefix. simpl. by destruct c. Qed.

Lemma shell_command_RUN (c : string) : shell_command ("RUN " +:+ c) = c.
Proof.
  unfold shell_command, TrimPrefix. rewrite HasPrefix_RUN. simpl.
  rewrite Nat.sub_0_r. apply substring_all.
Qed.

(** The prefix is cut off once: the shell is started on the text that follows
    the first [RUN ], whatever that text is (empty, or starting with [RUN ]
    again), while the result keeps the command as it was given. *)
Theorem ExecuteCommand_strips_prefix (E : Env) agentID c am :
  terminated am = false →
  let argv := if windows E then ["cmd"; "/C"; c] else ["sh"; "-c"; c] in
  let '(result, am') := ExecuteCommand E agentID ("RUN " +:+ c) am in
  spawned (trace am') = argv :: spawned (trace am) ∧
  CommandResult.Command result = "RUN " +:+ c.
Proof.
  intros Hterm. cbv zeta.
  destruct (ExecuteCommand_spawns E agentID ("RUN " +:+ c) am Hterm) as [tr H].
  cbv zeta in H. unfold shell_argv in H. rewrite shell_command_RUN in H.
  assert (CommandResult.Command (ExecuteCommand E agentID ("RUN " +:+ c) am).1
          = "RUN " +:+ c) as Hcmd.
  { unfold ExecuteCommand, validateCommand. rewrite Hterm, HasPrefix_RUN.
    cbv beta iota zeta. unfold now. by cbv beta iota zeta. }
  destruct (ExecuteCommand E agentID ("RUN " +:+ c) am) as [result am'].
  destruct H as (Hon & Htr & _). split; [|done].
  rewrite (spawn_on_spawned _ _ _ Hon). by rewrite Htr.
Qed.

Lemma ExecuteCommand_strips_prefix_witness :
  let '(result, am') := ExecuteCommand env_ok 1 "RUN RUN echo hi" am_alpha in
  spawned (trace am') = [["sh"; "-c"; "RUN echo hi"]] ∧
  CommandResult.Command result = "RUN RUN echo hi".
Proof.
  exact (ExecuteCommand_strips_prefix env_ok 1 "RUN echo hi" am_alpha eq_refl).
Defined.

(** [ExecuteCommand] writes no agent record but the one of its agent. *)
Lemma ExecuteCommand_other_agents (E : Env) agentID command am p' :
  agents am !! agentID ≠ Some p' →
  load_agent (ExecuteCommand E agentID command am).2 p' = load_agent am p'.
Proof.
  intros Hne.
  destruct am as [ag hp q arrs mx rn [] [] cl tr]; try done;
    unfold ExecuteCommand, validateCommand; cbn [agents terminated] in *;
    destruct (ag !! agentID) as [p|] eqn:Hag;
    destruct (HasPrefix command "RUN "); destruct (windows E); run_io;
    try done; rewrite !lookup_alter_ne by congruence; done.
Qed.

(** For a registered agent on a manager that is not terminated,
    [ExecuteCommand] leaves the agent idle with no current task, stamps its
    last execution, and adds one to its count of done tasks when the exit
    code is 0 and one to its count of failed tasks otherwise; its id, name
    and start time stay, and so does every other agent record. *)
Theorem ExecuteCommand_registered_agent (E : Env) agentID command am p a :
  terminated am = false →
  agents am !! agentID = Some p →
  load_agent am p = Some a →
  let '(result, am') := ExecuteCommand E agentID command am in
  let ok := CommandResult.ExitCode result =? 0 in
  load_agent am' p
  = Some (Agent.mk (Agent.ID a) (Agent.Name a) "idle" "" (Agent.StartTime a)
            (timeNow E (clock am)) (Agent.MemoryUsage a) (Agent.CPUUsage a)
            (Agent.NetworkUsage a)
            (if ok then int_wrap (Agent.TasksDone a + 1) else Agent.TasksDone a)
            (if ok then Agent.TasksFailed a else int_wrap (Agent.TasksFailed a + 1))) ∧
  (∀ p', p' ≠ p → load_agent am' p' = load_agent am p') ∧
  agents am' = agents am.
Proof.
  intros Hterm Hag Ha.
  destruct (ExecuteCommand_writes_agent E agentID command am p Hterm Hag)
    as (code & Hload & Hcode).
  pose proof (ExecuteCommand_frame E agentID command am) as (Hagents & _).
  pose proof (λ p', ExecuteCommand_other_agents E agentID command am p') as Hother.
  destruct (ExecuteCommand E agentID command am) as [result am']. cbv zeta.
  cbn [fst snd] in *. subst code. split_and!; [|intros p' Hp'|done].
  - rewrite Hload, Ha. cbn [fmap option_fmap option_map]. unfold finish.
    by destruct (CommandResult.ExitCode result =? 0).
  - apply Hother. rewrite Hag. congruence.
Qed.

Lemma ExecuteCommand_registered_agent_witness :
  let '(result, am') := ExecuteCommand env_ok 1 "RUN echo hi" am_alpha in
  Agent.TasksDone <$> load_agent am' 0%nat = Some 1 ∧
  Agent.TasksFailed <$> load_agent am' 0%nat = Some 0 ∧
  Agent.Status <$> load_agent am' 0%nat = Some "idle".
Proof.
  pose proof (ExecuteCommand_registered_agent env_ok 1 "RUN echo hi" am_alpha 0%nat
                agent_alpha eq_refl eq_refl eq_refl) as H.
  destruct (ExecuteCommand env_ok 1 "RUN echo hi" am_alpha) as [result am'] eqn:Hrun.
  cbv zeta in H. destruct H as (Hload & _ & _).
  assert (CommandResult.ExitCode result = 0) as Hcode.
  { change result with (result, am').1. rewrite <- Hrun. reflexivity. }
  rewrite Hload, Hcode. by split_and!.
Defined.

(** ** More about the registry *)

(** Each agent record after [ExecuteCommand] is the record before it, up to
    writes that keep the id. *)
Lemma ExecuteCommand_heap (E : Env) agentID command am p' :
  ∃ f, (∀ a, Agent.ID (f a) = Agent.ID a) ∧
       load_agent (ExecuteCommand E agentID command am).2 p' = f <$> load_agent am p'.
Proof.
  destruct (terminated am) eqn:Hterm.
  { exists id. split; [done|]. rewrite ExecuteCommand_terminated by done.
    by rewrite option_fmap_id. }
  destruct (decide (agents am !! agentID = Some p')) as [Hag|Hag].
  - destruct (ExecuteCommand_writes_agent E agentID command am p' Hterm Hag)
      as (code & Hload & _).
    eexists. split; [|exact Hload]. intros a. unfold finish.
    by destruct (code =? 0).
  - exists id. split; [done|]. rewrite ExecuteCommand_other_agents by done.
    by rewrite option_fmap_id.
Qed.

Lemma loop_body_heap (E : Env) agentID am p' :
  ∃ f, (∀ a, Agent.ID (f a) = Agent.ID a) ∧
       load_agent (loop_body E agentID am) p' = f <$> load_agent am p'.
Proof.
  unfold loop_body.
  pose proof (GetNextQueueItem_frame am) as (_ & Hheap1 & _).
  destruct (GetNextQueueItem am) as [[item|] am1]; cbn [snd] in Hheap1.
  - set (am2 := store_item _ _ am1). set (am3 := updateQueueItemInDB _ am2).
    set (cmd := QueueItem.Command _).
    assert (agent_heap am3 = agent_heap am) as Hheap3.
    { destruct (updateQueueItemInDB_quiet
                  (default QueueItem.zero (load_item (arrays am2) item)) am2)
        as (_ & Hq & _).
      unfold am3. rewrite Hq. exact Hheap1. }
    destruct (ExecuteCommand_heap E agentID cmd am3 p') as (f & Hf & Hload).
    destruct (ExecuteCommand E agentID cmd am3) as [result am4]. cbn [snd] in Hload.
    exists f. split; [done|].
    destruct (CompleteQueueItem_frame
                (QueueItem.Index (default QueueItem.zero (load_item (arrays am4) item)))
                (CommandResult.Output result) (CommandResult.ExitCode result =? 0) am4)
      as (_ & Hheap5 & _).
    unfold load_agent in *. by rewrite Hheap5, Hload, Hheap3.
  - exists id. split; [done|].
    unfold load_agent. by rewrite Hheap1, option_fmap_id.
Qed.

Lemma loop_turn_heap (E : Env) agentID am am' p' :
  loop_turn E agentID am = Some am' →
  ∃ f, (∀ a, Agent.ID (f a) = Agent.ID a) ∧
       load_agent am' p' = f <$> load_agent am p'.
Proof.
  unfold loop_turn. destruct (loop_guard am); [|done].
  intros [= <-]. apply loop_body_heap.
Qed.

Lemma wf_registry_heap am am' :
  agents am' = agents am →
  (∀ p', ∃ f, (∀ a, Agent.ID (f a) = Agent.ID a) ∧
              load_agent am' p' = f <$> load_agent am p') →
  wf_registry am → wf_registry am'.
Proof.
  intros Hag Hheap Hwf id p Hp. rewrite Hag in Hp.
  destruct (Hwf id p Hp) as (a & Ha & Hid).
  destruct (Hheap p) as (f & Hf & Hload). unfold load_agent in Hload.
  exists (f a). split; [by rewrite Hload, Ha|]. by rewrite Hf.
Qed.

Lemma wf_registry_frame am am' :
  agents am' = agents am → agent_heap am' = agent_heap am →
  wf_registry am → wf_registry am'.
Proof. unfold wf_registry. intros -> ->. done. Qed.

Lemma ids_in_range_frame am am' :
  agents am' = agents am → maxAgents am' = maxAgents am →
  ids_in_range am → ids_in_range am'.
Proof. unfold ids_in_range. intros -> ->. done. Qed.

Lemma smallest_unused_le_size (m : gmap Z nat) id :
  smallest_unused 1 m id → id ≤ Z.of_nat (size m) + 1.
Proof.
  intros (Hid & _ & Hkeys).
  assert (Z.to_nat (id - 1) ≤ size m)%nat.
  { apply size_ge_of_keys. intros k Hk. apply Hkeys. lia. }
  lia.
Qed.

Section RegistryInvariants.
Context (E : Env).

Lemma AddAgent_wf_registry fuel name am r am' :
  int_range (maxAgents am) →
  Z.of_nat (size (agents am)) ≤ maxAgents am →
  maxAgents am ≤ Z.of_nat fuel →
  AddAgent E fuel name am = Done (r, am') →
  (wf_registry am → wf_registry am') ∧ (ids_in_range am → ids_in_range am').
Proof.
  intros Hrange Hsize Hfuel Hadd.
  destruct (Z.le_gt_cases (maxAgents am) (Z.of_nat (size (agents am)))) as [Hfull|Hroom].
  { rewrite AddAgent_full in Hadd by done. by injection Hadd as <- <-. }
  destruct (AddAgent_room E fuel name am) as
    (id & p & am1 & Hadd1 & Hid & Hfresh & Hag & Hheap & Hmax & _); [done|lia|lia|].
  rewrite Hadd1 in Hadd. injection Hadd as <- <-. split.
  - intros Hwf id' p' Hp'. rewrite Hag in Hp'. rewrite Hheap.
    destruct (decide (id' = id)) as [->|Hne].
    + rewrite lookup_insert_eq in Hp'. injection Hp' as <-.
      eexists. split; [apply lookup_insert_eq|done].
    + rewrite lookup_insert_ne in Hp' by done.
      destruct (Hwf id' p' Hp') as (a & Ha & Hida).
      exists a. split; [|done]. rewrite lookup_insert_ne; [done|].
      intros <-. by rewrite Hfresh in Ha.
  - intros Hin id' p' Hp'. rewrite Hag in Hp'. rewrite Hmax.
    destruct (decide (id' = id)) as [->|Hne].
    + pose proof (smallest_unused_le_size _ _ Hid). destruct Hid as (? & _). lia.
    + rewrite lookup_insert_ne in Hp' by done. eauto.
Qed.

End RegistryInvariants.

Lemma RemoveAgent_invariants id am :
  queue (RemoveAgent id am).2 = queue am ∧
  arrays (RemoveAgent id am).2 = arrays am ∧
  (wf_registry am → wf_registry (RemoveAgent id am).2) ∧
  (ids_in_range am → ids_in_range (RemoveAgent id am).2).
Proof.
  destruct (agents am !! id) as [p|] eqn:Hp.
  - unfold RemoveAgent. rewrite Hp.
    destruct am as [ag hp q arrs mx rn tm [] cl tr]; run_io; cbn [snd];
      (split_and!; [done|done|..]);
      intros H id' p' Hp'; cbn [agents agent_heap maxAgents] in *;
      apply lookup_delete_Some in Hp' as [_ Hp']; eauto.
  - by rewrite RemoveAgent_absent.
Qed.

(** ** What every sequence of operations keeps *)

Lemma GetNextQueueItem_wf am : wf_queue am → wf_queue (GetNextQueueItem am).2.
Proof.
  intros Hwf. unfold GetNextQueueItem.
  destruct (scan_best _ _ _ _) as [i|]; [|done]. cbn [snd].
  eapply quiet_wf_queue; [apply updateQueueItemInDB_quiet|]. by apply store_item_wf.
Qed.

Lemma CompleteQueueItem_wf index output success am :
  wf_queue am → wf_queue (CompleteQueueItem index output success am).
Proof.
  intros Hwf. unfold CompleteQueueItem.
  destruct (find_index _ _ _) as [[i q]|]; [|done].
  eapply quiet_wf_queue; [apply updateQueueItemInDB_quiet|].
  by do 2 apply store_item_wf.
Qed.

Lemma RemoveFromQueue_wf index am : wf_queue am → wf_queue (RemoveFromQueue index am).2.
Proof.
  intros Hwf. destruct (find_index index (queue_items am) 0) as [[i q]|] eqn:Hfind.
  - by destruct (RemoveFromQueue_items index am i q Hwf Hfind) as (_ & _ & ?).
  - unfold RemoveFromQueue. by rewrite Hfind.
Qed.

Lemma wf_queue_frame am am' :
  queue am' = queue am → arrays am' = arrays am → wf_queue am → wf_queue am'.
Proof. unfold wf_queue. intros -> ->. done. Qed.

Section Invariants.
Context (E : Env).

Lemma ExecuteCommand_wf agentID command am :
  wf_queue am → wf_queue (ExecuteCommand E agentID command am).2.
Proof.
  destruct (ExecuteCommand_frame E agentID command am) as (_ & Hq & Ha & _).
  by apply wf_queue_frame.
Qed.

Lemma loop_body_wf agentID am : wf_queue am → wf_queue (loop_body E agentID am).
Proof.
  unfold loop_body.
  pose proof (GetNextQueueItem_wf am) as Hnext.
  destruct (GetNextQueueItem am) as [[item|] am1]; cbn [snd] in Hnext.
  - set (am2 := store_item _ _ am1). set (am3 := updateQueueItemInDB _ am2).
    set (cmd := QueueItem.Command _).
    pose proof (ExecuteCommand_wf agentID cmd am3) as Hexec.
    destruct (ExecuteCommand E agentID cmd am3) as [result am4]. cbn [snd] in Hexec.
    intros Hwf. apply CompleteQueueItem_wf, Hexec.
    eapply quiet_wf_queue; [apply updateQueueItemInDB_quiet|].
    apply store_item_wf. auto.
  - done.
Qed.

Lemma loop_turn_wf agentID am am' :
  loop_turn E agentID am = Some am' → wf_queue am → wf_queue am'.
Proof.
  unfold loop_turn. destruct (loop_guard am); [|done].
  intros [= <-]. apply loop_body_wf.
Qed.

Lemma apply_op_inv fuel op am am' :
  int_range (maxAgents am) →
  maxAgents am ≤ Z.of_nat fuel →
  manager_inv am →
  apply_op E fuel op am = Done am' →
  manager_inv am' ∧ maxAgents am' = maxAgents am.
Proof.
  intros Hrange Hfuel (Hreg & Hids & Hwf & Hsize) Hop.
  destruct (apply_op_bounded E fuel op am Hrange Hsize Hfuel) as (am1 & Hop1 & Hmax & Hsize').
  rewrite Hop in Hop1. injection Hop1 as <-.
  split; [|done]. unfold manager_inv. split_and!; [..|done].
  - destruct op; simpl in Hop.
    + destruct (AddAgent E fuel name am) as [[r am1]|] eqn:Hadd; [|done].
      injection Hop as <-. by eapply AddAgent_wf_registry.
    + injection Hop as <-. by apply RemoveAgent_invariants.
    + injection Hop as <-.
      destruct (AddToQueue_frame E commands am) as (? & ? & _).
      by eapply wf_registry_frame.
    + injection Hop as <-.
      destruct (AddToQueueWithPriority_frame E command priority am) as (? & ? & _).
      by eapply wf_registry_frame.
    + injection Hop as <-. destruct (RemoveFromQueue_frame index am) as (? & ? & _).
      by eapply wf_registry_frame.
    + injection Hop as <-. destruct (GetNextQueueItem_frame am) as (? & ? & _).
      by eapply wf_registry_frame.
    + injection Hop as <-.
      destruct (CompleteQueueItem_frame index output success am) as (? & ? & _).
      by eapply wf_registry_frame.
    + injection Hop as <-. eapply wf_registry_heap; [| |done].
      * by destruct (ExecuteCommand_frame E agentID command am) as (? & _).
      * intros p'. apply ExecuteCommand_heap.
    + injection Hop as <-.
      destruct (loop_turn E agentID am) as [am1|] eqn:Hturn; [|done]. simpl.
      eapply wf_registry_heap; [| |done].
      * by destruct (loop_turn_frame E _ _ _ Hturn) as (? & _).
      * intros p'. by eapply loop_turn_heap.
    + injection Hop as <-. destruct (GracefulTerminate_frame signal am) as (? & ? & _).
      by eapply wf_registry_frame.
    + injection Hop as <-. eapply wf_registry_heap; [| |done].
      * by destruct (loop_body_frame E agentID am) as (? & _).
      * intros p'. apply loop_body_heap.
    + injection Hop as <-. destruct (handleMessage_stop_frame am) as (? & ? & _).
      by eapply wf_registry_frame.
  - destruct op; simpl in Hop.
    + destruct (AddAgent E fuel name am) as [[r am1]|] eqn:Hadd; [|done].
      injection Hop as <-. by eapply AddAgent_wf_registry.
    + injection Hop as <-. by apply RemoveAgent_invariants.
    + injection Hop as <-. destruct (AddToQueue_frame E commands am) as (? & _ & ? & _).
      by eapply ids_in_range_frame.
    + injection Hop as <-.
      destruct (AddToQueueWithPriority_frame E command priority am) as (? & _ & ? & _).
      by eapply ids_in_range_frame.
    + injection Hop as <-. destruct (RemoveFromQueue_frame index am) as (? & _ & ? & _).
      by eapply ids_in_range_frame.
    + injection Hop as <-. destruct (GetNextQueueItem_frame am) as (? & _ & ? & _).
      by eapply ids_in_range_frame.
    + injection Hop as <-.
      destruct (CompleteQueueItem_frame index output success am) as (? & _ & ? & _).
      by eapply ids_in_range_frame.
    + injection Hop as <-.
      destruct (ExecuteCommand_frame E agentID command am) as (? & _ & _ & ? & _).
      by eapply ids_in_range_frame.
    + injection Hop as <-.
      destruct (loop_turn E agentID am) as [am1|] eqn:Hturn; [|done]. simpl.
      destruct (loop_turn_frame E _ _ _ Hturn) as (? & ? & _).
      by eapply ids_in_range_frame.
    + injection Hop as <-.
      destruct (GracefulTerminate_frame signal am) as (? & _ & ? & _).
      by eapply ids_in_range_frame.
    + injection Hop as <-. destruct (loop_body_frame E agentID am) as (? & ? & _).
      by eapply ids_in_range_frame.
    + injection Hop as <-. destruct (handleMessage_stop_frame am) as (? & _ & ? & _).
      by eapply ids_in_range_frame.
  - destruct op; simpl in Hop.
    + destruct (Z.le_gt_cases (maxAgents am) (Z.of_nat (size (agents am))))
        as [Hfull|Hroom].
      * rewrite AddAgent_full in Hop by done. by injection Hop as <-.
      * destruct (AddAgent_room E fuel name am) as
          (id & p & am1 & Hadd & _ & _ & _ & _ & _ & _ & Hq & Ha); [done|lia|lia|].
        rewrite Hadd in Hop. injection Hop as <-. by eapply wf_queue_frame.
    + injection Hop as <-. destruct (RemoveAgent_invariants id am) as (? & ? & _).
      by eapply wf_queue_frame.
    + injection Hop as <-. by apply AddToQueue_items.
    + injection Hop as <-.
      by destruct (AddToQueueWithPriority_items E command priority am Hwf) as (? & _ & ?).
    + injection Hop as <-. by apply RemoveFromQueue_wf.
    + injection Hop as <-. by apply GetNextQueueItem_wf.
    + injection Hop as <-. by apply CompleteQueueItem_wf.
    + injection Hop as <-. by apply ExecuteCommand_wf.
    + injection Hop as <-.
      destruct (loop_turn E agentID am) as [am1|] eqn:Hturn; [|done]. simpl.
      by eapply loop_turn_wf.
    + injection Hop as <-.
      destruct (GracefulTerminate_frame signal am) as (_ & _ & _ & ? & ? & _).
      by eapply wf_queue_frame.
    + injection Hop as <-. by apply loop_body_wf.
    + injection Hop as <-.
      destruct (handleMessage_stop_frame am) as (_ & _ & _ & ? & ? & _).
      by eapply wf_queue_frame.
Qed.

Lemma run_inv fuel ops : ∀ am am',
  int_range (maxAgents am) →
  maxAgents am ≤ Z.of_nat fuel →
  manager_inv am →
  run E fuel ops am = Done am' →
  manager_inv am' ∧ maxAgents am' = maxAgents am.
Proof.
  induction ops as [|op ops IH]; intros am am' Hrange Hfuel Hinv; simpl.
  - by intros [= <-].
  - destruct (apply_op E fuel op am) as [am1|] eqn:Hop; [|done].
    destruct (apply_op_inv fuel op am am1) as [Hinv1 Hmax1]; [done..|].
    intros Hrun. destruct (IH am1 am') as [Hinv' Hmax']; [congruence|congruence|done..|].
    split; [done|congruence].
Qed.

End Invariants.

Lemma NewAgentManager_inv connected : manager_inv (NewAgentManager connected).
Proof.
  unfold manager_inv. split_and!; [done|done|apply NewAgentManager_wf|].
  simpl. rewrite map_size_empty. lia.
Qed.

(** Over every sequence of operations the registry stays well formed: each
    registered id lies between 1 and the maximum and refers to a record that
    carries that id, and no two ids refer to the same record. *)
Theorem registry_stays_well_formed (E : Env) fuel ops am :
  int_range (maxAgents am) →
  maxAgents am ≤ Z.of_nat fuel →
  manager_inv am →
  ∃ am', run E fuel ops am = Done am' ∧
    (∀ id p, agents am' !! id = Some p →
       1 ≤ id ≤ maxAgents am ∧
       ∃ a, load_agent am' p = Some a ∧ Agent.ID a = id) ∧
    (∀ id1 id2 p, agents am' !! id1 = Some p → agents am' !! id2 = Some p → id1 = id2).
Proof.
  intros Hrange Hfuel Hinv.
  destruct (run_bounded E fuel ops am) as (am' & Hrun & _); [done|apply Hinv|done|].
  destruct (run_inv E fuel ops am am' Hrange Hfuel Hinv Hrun)
    as [(Hreg & Hids & _) Hmax].
  exists am'. split_and!; [done|..].
  - intros id p Hp. split; [rewrite <- Hmax; eauto|]. apply (Hreg id p Hp).
  - intros id1 id2 p H1 H2.
    destruct (Hreg id1 p H1) as (a1 & Ha1 & <-).
    destruct (Hreg id2 p H2) as (a2 & Ha2 & <-). congruence.
Qed.

Lemma registry_stays_well_formed_witness :
  ∃ am', run env_ok 10 busy_day (NewAgentManager false) = Done am' ∧
    (∀ id p, agents am' !! id = Some p → 1 ≤ id ≤ 10).
Proof.
  destruct (registry_stays_well_formed env_ok 10 busy_day (NewAgentManager false))
    as (am' & Hrun & Hids & _).
  - unfold int_range, int_min, int_max. simpl. lia.
  - simpl. lia.
  - apply NewAgentManager_inv.
  - exists am'. split; [exact Hrun|]. intros id p Hp. exact (proj1 (Hids id p Hp)).
Defined.

(** Over every sequence of operations the queue fits its backing array: the
    items that can be read are as many as the length of the slice says, so no
    cell below the length is missing. *)
Theorem queue_stays_within_capacity (E : Env) fuel ops am :
  int_range (maxAgents am) →
  maxAgents am ≤ Z.of_nat fuel →
  manager_inv am →
  ∃ am', run E fuel ops am = Done am' ∧
    length (queue_items am') = s_len (queue am') ∧
    (s_len (queue am') ≤ length (backing (arrays am') (queue am')))%nat.
Proof.
  intros Hrange Hfuel Hinv.
  destruct (run_bounded E fuel ops am) as (am' & Hrun & _); [done|apply Hinv|done|].
  destruct (run_inv E fuel ops am am' Hrange Hfuel Hinv Hrun) as [(_ & _ & Hwf & _) _].
  exists am'. split_and!; [done|by apply wf_queue_length|done].
Qed.

Lemma queue_stays_within_capacity_witness :
  ∃ am', run env_ok 10 busy_day (NewAgentManager false) = Done am' ∧
    length (queue_items am') = s_len (queue am').
Proof.
  destruct (queue_stays_within_capacity env_ok 10 busy_day (NewAgentManager false))
    as (am' & Hrun & Hlen & _).
  - unfold int_range, int_min, int_max. simpl. lia.
  - simpl. lia.
  - apply NewAgentManager_inv.
  - exists am'. split; [exact Hrun|exact Hlen].
Defined.

(** Adding an agent and removing it again gives back the registry as it
    was: the new id is registered in between and free afterwards, and no
    record of another agent is touched. *)
Theorem AddAgent_RemoveAgent_round_trip (E : Env) fuel name am :
  int_range (maxAgents am) →
  Z.of_nat (size (agents am)) < maxAgents am →
  (size (agents am) < fuel)%nat →
  ∃ id p am1 am2,
    AddAgent E fuel name am = Done (Some p, am1) ∧
    agents am !! id = None ∧
    agents am1 !! id = Some p ∧
    RemoveAgent id am1 = (true, am2) ∧
    agents am2 = agents am ∧
    (∀ p', p' ≠ p → load_agent am2 p' = load_agent am p').
Proof.
  intros Hrange Hroom Hfuel.
  destruct (AddAgent_room E fuel name am Hrange Hroom Hfuel)
    as (id & p & am1 & Hadd & (_ & Hfree & _) & _ & Hag & Hheap & _).
  assert (agents am1 !! id = Some p) as Hp by (rewrite Hag; apply lookup_insert_eq).
  destruct (RemoveAgent_present id p am1 Hp) as (am2 & Hrm & Hag2 & Hheap2 & _).
  exists id, p, am1, am2. split_and!; [done..| |].
  - rewrite Hag2, Hag. by apply delete_insert_id.
  - intros p' Hp'. unfold load_agent. rewrite Hheap2, Hheap.
    by apply lookup_insert_ne.
Qed.

Lemma AddAgent_RemoveAgent_round_trip_witness :
  ∃ id p am1 am2,
    AddAgent env_ok 2 "beta" am_alpha = Done (Some p, am1) ∧
    agents am1 !! id = Some p ∧
    RemoveAgent id am1 = (true, am2) ∧
    agents am2 = agents am_alpha.
Proof.
  destruct (AddAgent_RemoveAgent_round_trip env_ok 2 "beta" am_alpha)
    as (id & p & am1 & am2 & Hadd & _ & Hp & Hrm & Hag & _).
  - unfold int_range, int_min, int_max. simpl. lia.
  - vm_compute. reflexivity.
  - vm_compute. lia.
  - exists id, p, am1, am2. split_and!; [exact Hadd|exact Hp|exact Hrm|exact Hag].
Defined.

(** ** More about the queue *)

Lemma find_index_first index items : ∀ k i q,
  items !! i = Some q →
  QueueItem.Index q = index →
  (∀ j q', (j < i)%nat → items !! j = Some q' → QueueItem.Index q' ≠ index) →
  find_index index items k = Some ((k + i)%nat, q).
Proof.
  induction items as [|item rest IH]; intros k i q Hi Hq Hfirst; [by destruct i|].
  simpl. destruct i as [|i]; simpl in Hi.
  - injection Hi as ->. rewrite (proj2 (Z.eqb_eq _ _) Hq). by rewrite Nat.add_0_r.
  - assert (QueueItem.Index item ≠ index) as Hne by (apply (Hfirst 0%nat); [lia|done]).
    rewrite (proj2 (Z.eqb_neq _ _) Hne).
    rewrite (IH (S k) i q Hi Hq); [f_equal; f_equal; lia|].
    intros j q' Hj Hq'. apply (Hfirst (S j)); [lia|done].
Qed.

Lemma list_alter_insert {A} (f : A → A) (l : list A) (i : nat) (x : A) :
  l !! i = Some x → alter f i l = <[i := f x]> l.
Proof.
  revert i. induction l as [|y l IH]; intros [|i] Hi; simpl in *; try done.
  - by injection Hi as ->.
  - f_equal. by apply IH.
Qed.

Lemma CompleteQueueItem_found index output success am i q :
  queue_items am !! i = Some q →
  QueueItem.Index q = index →
  (∀ j q', (j < i)%nat → queue_items am !! j = Some q' → QueueItem.Index q' ≠ index) →
  queue_items (CompleteQueueItem index output success am)
  = <[i := QueueItem.set_Output output
            (QueueItem.set_Status (if success then "completed" else "failed") q)]>
      (queue_items am).
Proof.
  intros Hi Hq Hfirst.
  pose proof (find_index_first index (queue_items am) 0 i q Hi Hq Hfirst) as Hfind.
  unfold CompleteQueueItem. rewrite Hfind. cbn [Nat.add].
  rewrite (quiet_queue_items _ _ (updateQueueItemInDB_quiet _ _)).
  set (p := {| p_arr := s_ptr (queue am); p_idx := i |}).
  set (am1 := store_item p _ am).
  assert (queue_items am1
          = <[i := QueueItem.set_Status (if success then "completed" else "failed") q]>
              (queue_items am)) as H1.
  { unfold am1, p. rewrite store_item_items. by apply list_alter_insert. }
  change p with {| p_arr := s_ptr (queue am1); p_idx := i |}.
  rewrite store_item_items, H1.
  rewrite (list_alter_insert _ _ i
             (QueueItem.set_Status (if success then "completed" else "failed") q)).
  - by rewrite list_insert_insert_eq.
  - apply list_lookup_insert_eq. by eapply lookup_lt_Some.
Qed.

(** [CompleteQueueItem] writes the status (completed on success, failed
    otherwise) and the output into the first item that carries the index and
    into no other; when no item carries the index it does nothing at all. *)
Theorem CompleteQueueItem_marks_first_match index output success am :
  (∀ i q,
     queue_items am !! i = Some q →
     QueueItem.Index q = index →
     (∀ j q', (j < i)%nat → queue_items am !! j = Some q' →
        QueueItem.Index q' ≠ index) →
     queue_items (CompleteQueueItem index output success am)
     = <[i := QueueItem.set_Output output
               (QueueItem.set_Status (if success then "completed" else "failed") q)]>
         (queue_items am) ∧
     queue (CompleteQueueItem index output success am) = queue am ∧
     agents (CompleteQueueItem index output success am) = agents am ∧
     agent_heap (CompleteQueueItem index output success am) = agent_heap am) ∧
  ((∀ j q, queue_items am !! j = Some q → QueueItem.Index q ≠ index) →
   CompleteQueueItem index output success am = am).
Proof.
  split.
  - intros i q Hi Hq Hfirst.
    destruct (CompleteQueueItem_frame index output success am) as (Hag & Hheap & _).
    split_and!; [by apply CompleteQueueItem_found|apply CompleteQueueItem_queue|done|done].
  - intros Habs. unfold CompleteQueueItem.
    by apply (find_index_None index (queue_items am) 0) in Habs as ->.
Qed.

Lemma CompleteQueueItem_marks_first_match_witness :
  QueueItem.Status <$> queue_items (CompleteQueueItem 2 "b" false am_queued)
  = ["pending"; "failed"] ∧
  CompleteQueueItem 9 "b" false am_queued = am_queued.
Proof.
  destruct (CompleteQueueItem_marks_first_match 2 "b" false am_queued) as [Hhit _].
  destruct (CompleteQueueItem_marks_first_match 9 "b" false am_queued) as [_ Hmiss].
  split.
  - destruct (Hhit 1%nat
                (QueueItem.mk 0 2 "RUN echo b" "pending" "" 0 1 "" "")) as (-> & _).
    + reflexivity.
    + reflexivity.
    + intros [|j] q' Hj Hq'; [|lia]. vm_compute in Hq'. by injection Hq' as <-.
    + reflexivity.
  - apply Hmiss. intros [|[|j]] q Hq; vm_compute in Hq; simplify_eq; done.
Defined.

(** [RemoveFromQueue] takes out the first item that carries the index, and
    only that one: the other items stay, in their order, and with a database
    connected the row of the removed item is deleted by its id. *)
Theorem RemoveFromQueue_removes_first_match index am i q :
  wf_queue am →
  queue_items am !! i = Some q →
  QueueItem.Index q = index →
  (∀ j q', (j < i)%nat → queue_items am !! j = Some q' → QueueItem.Index q' ≠ index) →
  ∃ am',
    RemoveFromQueue index am = (true, am') ∧
    queue_items am' = take i (queue_items am) ++ drop (S i) (queue_items am) ∧
    agents am' = agents am ∧
    agent_heap am' = agent_heap am ∧
    (db am = true → DeleteQueueItem (QueueItem.ID q) ∈ trace am').
Proof.
  intros Hwf Hi Hq Hfirst.
  pose proof (find_index_first index (queue_items am) 0 i q Hi Hq Hfirst) as Hfind.
  cbn [Nat.add] in Hfind.
  destruct (RemoveFromQueue_items index am i q Hwf Hfind) as (Hres & Hitems & _).
  destruct (RemoveFromQueue_frame index am) as (Hag & Hheap & _).
  exists (RemoveFromQueue index am).2.
  split_and!; [|by rewrite Hitems, delete_take_drop|done|done|].
  - rewrite <- Hres. by destruct (RemoveFromQueue index am).
  - intros Hdb. unfold RemoveFromQueue. rewrite Hfind.
    unfold broadcastMessage, deleteQueueItemFromDB, remove_at, emit. rewrite Hdb.
    cbn [snd trace set_trace set_queue set_arrays].
    apply list_elem_of_In. right. by left.
Qed.

Lemma RemoveFromQueue_removes_first_match_witness :
  ∃ am', RemoveFromQueue 1 am_queued = (true, am') ∧
         QueueItem.Command <$> queue_items am' = ["RUN echo b"].
Proof.
  destruct (RemoveFromQueue_removes_first_match 1 am_queued 0%nat
              (QueueItem.mk 0 1 "RUN echo a" "pending" "" 0 3 "" ""))
    as (am' & Hrm & Hitems & _).
  - unfold wf_queue. vm_compute. lia.
  - reflexivity.
  - reflexivity.
  - intros j q' Hj. lia.
  - exists am'. split; [exact Hrm|]. rewrite Hitems. reflexivity.
Defined.

(** [AddToQueueWithPriority] puts one pending item with the command and the
    priority behind the items that are there, which stay as they are, whether
    or not the backing array has to grow; the item is unassigned, and its
    index is the length of the queue plus one. *)
Theorem AddToQueueWithPriority_appends (E : Env) command priority am :
  wf_queue am →
  ∃ q,
    queue_items (AddToQueueWithPriority E command priority am) = queue_items am ++ [q] ∧
    QueueItem.Command q = command ∧
    QueueItem.Priority q = priority ∧
    QueueItem.Status q = "pending" ∧
    QueueItem.AgentID q = 0 ∧
    QueueItem.Index q = int_wrap (Z.of_nat (length (queue_items am)) + 1) ∧
    agents (AddToQueueWithPriority E command priority am) = agents am ∧
    agent_heap (AddToQueueWithPriority E command priority am) = agent_heap am.
Proof.
  intros Hwf.
  destruct (AddToQueueWithPriority_items E command priority am Hwf) as (id & Hitems & _).
  destruct (AddToQueueWithPriority_frame E command priority am) as (Hag & Hheap & _).
  eexists. split; [exact Hitems|]. rewrite (wf_queue_length am Hwf).
  by split_and!.
Qed.

Lemma AddToQueueWithPriority_appends_witness :
  QueueItem.Command <$> queue_items (AddToQueueWithPriority env_ok "RUN echo c" 7 am_queued)
  = ["RUN echo a"; "RUN echo b"; "RUN echo c"].
Proof.
  destruct (AddToQueueWithPriority_appends env_ok "RUN echo c" 7 am_queued)
    as (q & -> & Hcmd & _).
  - unfold wf_queue. vm_compute. lia.
  - rewrite fmap_app. cbn [fmap list_fmap]. rewrite Hcmd. reflexivity.
Defined.

Lemma count_pending_claim (items : list QueueItem.t) : ∀ (i : nat) q,
  items !! i = Some q → pending q →
  S (count_pending (alter (QueueItem.set_Status "running") i items))
  = count_pending items.
Proof.
  unfold count_pending.
  induction items as [|x items IH]; intros [|i] q Hi Hq; simpl in *; try done.
  - injection Hi as ->. rewrite filter_cons_False by done.
    by rewrite filter_cons_True by done.
  - destruct (decide (pending x)).
    + rewrite !filter_cons_True by done. simpl. f_equal. by eapply IH.
    + rewrite !filter_cons_False by done. by eapply IH.
Qed.

Lemma count_pending_zero items :
  count_pending items = 0%nat ↔ ∀ j q, items !! j = Some q → ¬ pending q.
Proof.
  unfold count_pending. rewrite length_zero_iff_nil. split.
  - intros Hnil j q Hj Hq.
    assert (q ∈ filter pending items) as Hin.
    { apply list_elem_of_filter. split; [done|]. by eapply list_elem_of_lookup_2. }
    rewrite Hnil in Hin. by apply not_elem_of_nil in Hin.
  - intros Hall. induction items as [|x items IH]; [done|].
    rewrite filter_cons_False by apply (Hall 0%nat x eq_refl).
    apply IH. intros j q Hj. by apply (Hall (S j)).
Qed.

Lemma claimed_alter (items : list QueueItem.t) : ∀ (i : nat) q,
  items !! i = Some q → pending q →
  claimed <$> alter (QueueItem.set_Status "running") i items = claimed <$> items.
Proof.
  induction items as [|x items IH]; intros [|i] q Hi Hq; simpl in *; try done.
  - injection Hi as ->. f_equal. unfold claimed.
    destruct (decide (pending (QueueItem.set_Status "running" q))) as [Hr|_];
      [by unfold pending in Hr|].
    by rewrite decide_True.
  - f_equal. by eapply IH.
Qed.

Lemma claimed_none (items : list QueueItem.t) :
  (∀ j q, items !! j = Some q → ¬ pending q) → claimed <$> items = items.
Proof.
  intros Hall. induction items as [|x items IH]; [done|].
  rewrite fmap_cons. f_equal.
  - unfold claimed. rewrite decide_False; [done|]. by apply (Hall 0%nat).
  - apply IH. intros j q Hj. by apply (Hall (S j)).
Qed.

(** On a queue whose pending items all have a priority of 0 or more, as
    many calls of [GetNextQueueItem] as there are pending items each return
    an item, every pending item exactly once, and the next call returns nil;
    by then every item that was pending is running and nothing else has
    changed. *)
Theorem GetNextQueueItem_claims_each_once : ∀ n am,
  count_pending (queue_items am) = n →
  (∀ j q, queue_items am !! j = Some q → pending q → 0 ≤ QueueItem.Priority q) →
  ∃ idxs am',
    claim_n (S n) am
    = (((λ i, Some {| p_arr := s_ptr (queue am); p_idx := i |}) <$> idxs) ++ [None], am') ∧
    length idxs = n ∧
    NoDup idxs ∧
    (∀ i, i ∈ idxs ↔ ∃ q, queue_items am !! i = Some q ∧ pending q) ∧
    queue_items am' = claimed <$> queue_items am.
Proof.
  induction n as [|n IH]; intros am Hcount Hnn.
  - pose proof (GetNextQueueItem_spec am) as Hspec.
    pose proof (proj1 (count_pending_zero _) Hcount) as Hnone. clear Hcount.
    rename Hnone into Hcount.
    exists [], am. simpl. destruct (GetNextQueueItem am) as [[p|] am1].
    + destruct Hspec as (_ & (q & Hq & Hpend & _) & _). by destruct (Hcount _ _ Hq).
    + destruct Hspec as [-> _]. split_and!; [done|done|constructor| |].
      * intros i. split; [by intros ?%not_elem_of_nil|].
        intros (q & Hq & Hpend). by destruct (Hcount _ _ Hq).
      * by rewrite claimed_none.
  - pose proof (GetNextQueueItem_spec am) as Hspec.
    change (claim_n (S (S n)) am)
      with (let '(p, am1) := GetNextQueueItem am in
            let '(ps, am2) := claim_n (S n) am1 in (p :: ps, am2)).
    destruct (GetNextQueueItem am) as [[p|] am1].
    + destruct Hspec as (Harr & (q & Hq & Hpend & _) & _ & Hqueue & Hitems).
      destruct p as [arr i]. cbn [p_arr p_idx] in *. subst arr.
      destruct (IH am1) as (idxs & am' & Hclaims & Hlen & Hnodup & Hmem & Hfinal).
      { rewrite Hitems. apply eq_add_S. rewrite (count_pending_claim _ i q) by done.
        done. }
      { intros j q' Hj Hq'. rewrite Hitems in Hj.
        destruct (decide (j = i)) as [->|Hne].
        - rewrite list_lookup_alter_eq, Hq in Hj. injection Hj as <-. done.
        - rewrite list_lookup_alter_ne in Hj by done. eauto. }
      rewrite Hclaims, Hqueue. exists (i :: idxs), am'.
      assert (∀ j, j ∈ idxs ↔ j ≠ i ∧ ∃ q', queue_items am !! j = Some q' ∧ pending q')
        as Hmem'.
      { intros j. rewrite Hmem, Hitems. split.
        - intros (q' & Hj & Hq'). destruct (decide (j = i)) as [->|Hne].
          + rewrite list_lookup_alter_eq, Hq in Hj. injection Hj as <-. done.
          + rewrite list_lookup_alter_ne in Hj by done. eauto.
        - intros (Hne & q' & Hj & Hq'). exists q'.
          by rewrite list_lookup_alter_ne. }
      split_and!.
      * done.
      * simpl. by rewrite Hlen.
      * constructor; [|done]. by intros [? _]%Hmem'.
      * intros j. rewrite elem_of_cons, Hmem'. split.
        -- intros [->|[_ ?]]; eauto.
        -- intros (q' & Hj & Hq'). destruct (decide (j = i)); eauto.
      * rewrite Hfinal, Hitems. by eapply claimed_alter.
    + destruct Hspec as [_ Hlow].
      assert (count_pending (queue_items am) = 0%nat) as Hzero.
      { apply count_pending_zero. intros j q Hj Hq.
        specialize (Hnn j q Hj Hq). specialize (Hlow j q Hj Hq). lia. }
      congruence.
Qed.

Lemma GetNextQueueItem_claims_each_once_witness :
  ∃ idxs am',
    claim_n 3 am_queued
    = (((λ i, Some {| p_arr := s_ptr (queue am_queued); p_idx := i |}) <$> idxs)
         ++ [None], am') ∧
    length idxs = 2%nat ∧
    QueueItem.Status <$> queue_items am' = ["running"; "running"].
Proof.
  destruct (GetNextQueueItem_claims_each_once 2 am_queued)
    as (idxs & am' & Hclaims & Hlen & _ & _ & Hfinal).
  - reflexivity.
  - intros [|[|j]] q Hq _; vm_compute in Hq; simplify_eq; done.
  - exists idxs, am'. split_and!; [exact Hclaims|exact Hlen|].
    rewrite Hfinal. reflexivity.
Defined.

Lemma mark_pending_zero items : mark_pending 0 items = items.
Proof. by destruct items. Qed.

Lemma GetNextBatch_step_frame batchSize acc i :
  registry_frame acc.2 (GetNextBatch_step batchSize acc i).2 ∧
  queue (GetNextBatch_step batchSize acc i).2 = queue acc.2.
Proof.
  destruct acc as [batch am]. unfold GetNextBatch_step. cbn [snd].
  destruct (queue_items am !! i) as [item|]; [|by split; [apply registry_frame_refl|]].
  destruct (_ && _); [|by split; [apply registry_frame_refl|]]. cbn [snd]. split.
  - eapply registry_frame_trans; [apply store_item_frame|].
    apply quiet_registry_frame, updateQueueItemInDB_quiet.
  - by destruct (updateQueueItemInDB_quiet
                   (default QueueItem.zero
                      (load_item
                         (arrays (store_item {| p_arr := s_ptr (queue am); p_idx := i |}
                                    (QueueItem.set_Status "running") am))
                         {| p_arr := s_ptr (queue am); p_idx := i |}))
                   (store_item {| p_arr := s_ptr (queue am); p_idx := i |}
                      (QueueItem.set_Status "running") am)) as (_ & _ & -> & _).
Qed.

Lemma GetNextBatch_loop_frame batchSize l : ∀ acc,
  registry_frame acc.2 (foldl (GetNextBatch_step batchSize) acc l).2.
Proof.
  induction l as [|i l IH]; intros acc; simpl; [apply registry_frame_refl|].
  eapply registry_frame_trans; [apply GetNextBatch_step_frame|apply IH].
Qed.

(** The loop of [GetNextBatch] from position [length done] on. *)
Lemma GetNextBatch_loop batchSize : ∀ todo done batch am,
  queue_items am = done ++ todo →
  let k := (Z.to_nat batchSize - length batch)%nat in
  let r := foldl (GetNextBatch_step batchSize) (batch, am)
             (seq (length done) (length todo)) in
  r.1 = batch ++ (QueueItem.set_Status "running" <$> take k (filter pending todo)) ∧
  queue_items r.2 = done ++ mark_pending k todo.
Proof.
  induction todo as [|q rest IH]; intros done batch am Hitems; cbv zeta.
  - cbn [length seq foldl fst snd mark_pending]. rewrite filter_nil, take_nil, fmap_nil.
    by rewrite !app_nil_r in *.
  - cbn [length seq foldl].
    assert (queue_items am !! length done = Some q) as Hq.
    { rewrite Hitems. by apply list_lookup_middle. }
    assert (length done < s_len (queue am))%nat as Hlt.
    { apply lookup_lt_Some in Hq. pose proof (queue_items_length am). lia. }
    destruct (String.eqb (QueueItem.Status q) "pending"
              && (Z.of_nat (length batch) <? batchSize)) eqn:Hcond.
    + apply andb_true_iff in Hcond as [Hp Hroom].
      set (p := {| p_arr := s_ptr (queue am); p_idx := length done |}).
      set (am1 := store_item p (QueueItem.set_Status "running") am).
      assert (queue_items am1 = done ++ QueueItem.set_Status "running" q :: rest) as H1.
      { unfold am1, p. rewrite store_item_items, Hitems.
        replace (length done) with (length done + 0)%nat at 1 by lia.
        by rewrite alter_app_r. }
      assert (load_item (arrays am1) p = Some (QueueItem.set_Status "running" q)) as Hload.
      { change p with {| p_arr := s_ptr (queue am1); p_idx := length done |}.
        rewrite load_item_queue by done. rewrite H1. by apply list_lookup_middle. }
      set (am2 := updateQueueItemInDB (QueueItem.set_Status "running" q) am1).
      assert (GetNextBatch_step batchSize (batch, am) (length done)
              = (batch ++ [QueueItem.set_Status "running" q], am2)) as Hstep.
      { unfold GetNextBatch_step. rewrite Hq, Hp, Hroom. cbn [andb].
        fold p. fold am1. by rewrite Hload. }
      rewrite Hstep. apply pending_eqb in Hp. apply Z.ltb_lt in Hroom.
      assert (queue_items am2
              = (done ++ [QueueItem.set_Status "running" q]) ++ rest) as H2.
      { unfold am2. rewrite (quiet_queue_items _ _ (updateQueueItemInDB_quiet _ _)).
        by rewrite H1, <- app_assoc. }
      specialize (IH _ (batch ++ [QueueItem.set_Status "running" q]) am2 H2).
      cbv zeta in IH. rewrite !length_app in IH. cbn [length] in IH.
      replace (length done + 1)%nat with (S (length done)) in IH by lia.
      destruct IH as [IHb IHq]. rewrite IHb, IHq.
      replace (Z.to_nat batchSize - length batch)%nat
        with (S (Z.to_nat batchSize - (length batch + 1)))%nat by lia.
      rewrite filter_cons_True by done. cbn [take mark_pending fmap list_fmap].
      rewrite decide_True by done. by rewrite <- !app_assoc.
    + assert (GetNextBatch_step batchSize (batch, am) (length done) = (batch, am))
        as Hstep.
      { unfold GetNextBatch_step. by rewrite Hq, Hcond. }
      rewrite Hstep.
      assert (¬ pending q ∨ (Z.to_nat batchSize - length batch)%nat = 0%nat) as Hcase.
      { apply andb_false_iff in Hcond as [Hp|Hroom].
        - left. intros Hq'%pending_eqb. congruence.
        - right. apply Z.ltb_ge in Hroom. lia. }
      assert (queue_items am = (done ++ [q]) ++ rest) as H2
        by by rewrite Hitems, <- app_assoc.
      specialize (IH _ batch am H2). cbv zeta in IH.
      rewrite length_app in IH. cbn [length] in IH.
      replace (length done + 1)%nat with (S (length done)) in IH by lia.
      destruct IH as [IHb IHq]. rewrite IHb, IHq.
      destruct Hcase as [Hnp|Hzero].
      * rewrite filter_cons_False by done. rewrite <- app_assoc. split; [done|].
        f_equal. destruct (Z.to_nat batchSize - length batch)%nat;
          cbn [mark_pending app].
        -- by rewrite mark_pending_zero.
        -- by rewrite decide_False.
      * rewrite Hzero, !take_0, !mark_pending_zero, <- app_assoc. done.
Qed.

(** [GetNextBatch] returns, as running, copies of the first [batchSize]
    pending items in the order of the queue (all of them when fewer are
    pending, none when [batchSize] is 0 or negative), whatever their
    priority; in the queue exactly those items are set to running. *)
Theorem GetNextBatch_takes_first_pending batchSize am :
  wf_queue am →
  let k := Z.to_nat batchSize in
  (GetNextBatch batchSize am).1
  = QueueItem.set_Status "running" <$> take k (filter pending (queue_items am)) ∧
  length (GetNextBatch batchSize am).1 = (k `min` count_pending (queue_items am))%nat ∧
  queue_items (GetNextBatch batchSize am).2 = mark_pending k (queue_items am) ∧
  agents (GetNextBatch batchSize am).2 = agents am ∧
  agent_heap (GetNextBatch batchSize am).2 = agent_heap am.
Proof.
  intros Hwf. cbv zeta. unfold GetNextBatch.
  destruct (GetNextBatch_loop batchSize (queue_items am) [] [] am eq_refl) as [Hb Hq].
  cbv zeta in Hb, Hq. cbn [length app] in Hb, Hq.
  rewrite Nat.sub_0_r in Hb, Hq. rewrite (wf_queue_length am Hwf) in Hb, Hq.
  destruct (GetNextBatch_loop_frame batchSize (seq 0 (s_len (queue am))) ([], am))
    as (Hag & Hheap & _).
  split_and!; [done| |done|done|done].
  rewrite Hb, length_fmap, length_take. done.
Qed.

Lemma GetNextBatch_takes_first_pending_witness :
  QueueItem.Command <$> (GetNextBatch 1 am_queued).1 = ["RUN echo a"] ∧
  QueueItem.Status <$> queue_items (GetNextBatch 1 am_queued).2 = ["running"; "pending"] ∧
  (GetNextBatch (-3) am_queued).1 = [].
Proof.
  destruct (GetNextBatch_takes_first_pending 1 am_queued) as (Hb & _ & Hq & _).
  { unfold wf_queue. vm_compute. lia. }
  destruct (GetNextBatch_takes_first_pending (-3) am_queued) as (Hb' & _).
  { unfold wf_queue. vm_compute. lia. }
  split_and!; [by rewrite Hb|by rewrite Hq|by rewrite Hb'].
Defined.

(** ** What goes into the trace *)

Lemma extends_trans P tr1 tr2 tr3 :
  extends P tr1 tr2 → extends P tr2 tr3 → extends P tr1 tr3.
Proof. intros H12 H23. induction H23; [done|]. by constructor. Qed.

Lemma extends_elem_of P tr l e : extends P tr l → e ∈ l → P e ∨ e ∈ tr.
Proof.
  induction 1 as [|e' l He' _ IH]; [by right|].
  intros [->|Hin]%elem_of_cons; [by left|auto].
Qed.

Lemma extends_spawned tr l :
  extends (λ e, ∀ a, e ≠ Spawn a) tr l → spawned l = spawned tr.
Proof.
  induction 1 as [|e l He _ IH]; [done|].
  unfold spawned in *. simpl. destruct e; try done. by destruct (He argv).
Qed.

Section Emits.
Context (E : Env) (P : Effect → Prop) (d : bool).
Hypothesis Hbroadcast : ∀ m, P (Broadcast m).
Hypothesis Hdb : d = true → ∀ e, is_db e = true → P e.

Lemma emits_refl am : emits P d am am.
Proof. intros Hd. split; [done|constructor]. Qed.

Lemma emits_trans am1 am2 am3 :
  emits P d am1 am2 → emits P d am2 am3 → emits P d am1 am3.
Proof.
  intros H12 H23 Hd. destruct (H12 Hd) as [Hd2 He2]. destruct (H23 Hd2) as [Hd3 He3].
  split; [done|]. by eapply extends_trans.
Qed.

(** A step that leaves the [db] flag and the trace alone. *)
Lemma emits_same am am' : db am' = db am → trace am' = trace am → emits P d am am'.
Proof. intros Hd Ht Hd'. rewrite Hd, Ht. split; [done|constructor]. Qed.

Lemma emits_db e am :
  is_db e = true → emits P d am (if db am then emit e am else am).
Proof.
  intros He Hd. destruct (db am) eqn:Hdbam; [|split; [congruence|constructor]].
  split; [simpl; congruence|]. simpl. constructor; [|constructor]. apply Hdb; congruence.
Qed.

Lemma broadcastMessage_emits msg am : emits P d am (broadcastMessage msg am).
Proof. intros Hd. split; [done|]. simpl. constructor; [done|constructor]. Qed.

Lemma saveLogToDB_emits entry am : emits P d am (saveLogToDB entry am).
Proof. by apply emits_db. Qed.

Lemma saveAgentToDB_emits agent am : emits P d am (saveAgentToDB agent am).
Proof. by apply emits_db. Qed.

Lemma deleteAgentFromDB_emits id am : emits P d am (deleteAgentFromDB id am).
Proof. by apply emits_db. Qed.

Lemma updateQueueItemInDB_emits item am : emits P d am (updateQueueItemInDB item am).
Proof. by apply emits_db. Qed.

Lemma deleteQueueItemFromDB_emits id am : emits P d am (deleteQueueItemFromDB id am).
Proof. by apply emits_db. Qed.

Lemma saveQueueItemToDB_emits item am : emits P d am (saveQueueItemToDB E item am).2.
Proof.
  unfold saveQueueItemToDB.
  pose proof (emits_db (SaveQueueItem item) am eq_refl) as H.
  by destruct (db am).
Qed.

Lemma append_item_emits item am : emits P d am (append_item E item am).
Proof. apply emits_same; unfold append_item; by destruct (_ <? _)%nat. Qed.

Lemma AddAgent_emits fuel name am r am' :
  AddAgent E fuel name am = Done (r, am') → emits P d am am'.
Proof.
  unfold AddAgent. destruct (_ <=? _); [intros [= <- <-]; apply emits_refl|].
  destruct (free_id _ _ _) as [id|]; [|done]. unfold now. cbv beta iota zeta.
  intros [= <- <-].
  eapply emits_trans; [|apply saveLogToDB_emits].
  eapply emits_trans; [|apply broadcastMessage_emits].
  eapply emits_trans; [|apply saveAgentToDB_emits].
  by apply emits_same.
Qed.

Lemma RemoveAgent_emits id am : emits P d am (RemoveAgent id am).2.
Proof.
  unfold RemoveAgent. destruct (agents am !! id) as [p|]; [|apply emits_refl].
  cbn [snd].
  eapply emits_trans; [|apply broadcastMessage_emits].
  eapply emits_trans; [|apply deleteAgentFromDB_emits].
  eapply emits_trans; [apply saveLogToDB_emits|]. by apply emits_same.
Qed.

Lemma AddToQueue_step_emits commands batchID baseIndex am i :
  emits P d am (AddToQueue_step E commands batchID baseIndex am i).
Proof.
  unfold AddToQueue_step. destruct (commands !! _) as [cmd|]; [|apply emits_refl].
  pose proof (saveQueueItemToDB_emits
                (QueueItem.mk 0 (int_wrap (baseIndex + Z.of_nat i)) cmd "pending"
                   "" 0 0 batchID "") am) as Hs.
  destruct (saveQueueItemToDB E _ am) as [id am1]. cbn [snd] in Hs.
  eapply emits_trans; [exact Hs|apply append_item_emits].
Qed.

Lemma AddToQueue_loop_emits commands batchID baseIndex l : ∀ am,
  emits P d am (foldl (AddToQueue_step E commands batchID baseIndex) am l).
Proof.
  induction l as [|i l IH]; intros am; simpl; [apply emits_refl|].
  eapply emits_trans; [apply AddToQueue_step_emits|apply IH].
Qed.

Lemma AddToQueue_emits commands am : emits P d am (AddToQueue E commands am).
Proof.
  unfold AddToQueue, now. cbv beta iota zeta.
  eapply emits_trans; [|apply saveLogToDB_emits].
  eapply emits_trans; [|apply broadcastMessage_emits].
  eapply emits_trans; [|apply AddToQueue_loop_emits].
  by apply emits_same.
Qed.

Lemma AddToQueueWithPriority_emits command priority am :
  emits P d am (AddToQueueWithPriority E command priority am).
Proof.
  unfold AddToQueueWithPriority.
  pose proof (saveQueueItemToDB_emits
                (QueueItem.mk 0 (int_wrap (Z.of_nat (s_len (queue am)) + 1)) command
                   "pending" "" 0 priority "" "") am) as Hs.
  destruct (saveQueueItemToDB E _ am) as [id am1]. cbn [snd] in Hs.
  eapply emits_trans; [|apply broadcastMessage_emits].
  eapply emits_trans; [exact Hs|apply append_item_emits].
Qed.

Lemma RemoveFromQueue_emits index am : emits P d am (RemoveFromQueue index am).2.
Proof.
  unfold RemoveFromQueue. destruct (find_index _ _ _) as [[i item]|]; [|apply emits_refl].
  cbn [snd].
  eapply emits_trans; [|apply broadcastMessage_emits].
  eapply emits_trans; [apply deleteQueueItemFromDB_emits|]. by apply emits_same.
Qed.

Lemma GetNextQueueItem_emits am : emits P d am (GetNextQueueItem am).2.
Proof.
  unfold GetNextQueueItem. destruct (scan_best _ _ _ _) as [i|]; [|apply emits_refl].
  cbn [snd].
  eapply emits_trans; [|apply updateQueueItemInDB_emits]. by apply emits_same.
Qed.

Lemma CompleteQueueItem_emits index output success am :
  emits P d am (CompleteQueueItem index output success am).
Proof.
  unfold CompleteQueueItem. destruct (find_index _ _ _) as [[i item]|]; [|apply emits_refl].
  eapply emits_trans; [|apply updateQueueItemInDB_emits]. by apply emits_same.
Qed.

Lemma GracefulTerminate_emits signal am : emits P d am (GracefulTerminate signal am).
Proof.
  unfold GracefulTerminate. destruct (String.eqb signal "<END!>"); [|apply emits_refl].
  eapply emits_trans; [|apply broadcastMessage_emits].
  eapply emits_trans; [|apply saveLogToDB_emits]. by apply emits_same.
Qed.

Lemma handleMessage_stop_emits am : emits P d am (handleMessage_stop am).
Proof.
  unfold handleMessage_stop.
  eapply emits_trans; [|apply broadcastMessage_emits]. by apply emits_same.
Qed.

(** The operations that run nothing. *)
Lemma apply_op_emits fuel op am am' :
  executes op = false → apply_op E fuel op am = Done am' → emits P d am am'.
Proof.
  intros Hex. destruct op; try done; simpl.
  - destruct (AddAgent E fuel name am) as [[r am1]|] eqn:Hadd; [|done].
    intros [= <-]. by eapply AddAgent_emits.
  - intros [= <-]. apply RemoveAgent_emits.
  - intros [= <-]. apply AddToQueue_emits.
  - intros [= <-]. apply AddToQueueWithPriority_emits.
  - intros [= <-]. apply RemoveFromQueue_emits.
  - intros [= <-]. apply GetNextQueueItem_emits.
  - intros [= <-]. apply CompleteQueueItem_emits.
  - intros [= <-]. apply GracefulTerminate_emits.
  - intros [= <-]. apply handleMessage_stop_emits.
Qed.

Lemma run_emits_idle fuel ops : ∀ am am',
  Forall (λ op, executes op = false) ops →
  run E fuel ops am = Done am' → emits P d am am'.
Proof.
  induction ops as [|op ops IH]; intros am am' Hidle; simpl.
  - intros [= <-]. apply emits_refl.
  - apply Forall_cons in Hidle as [Hop Hidle].
    destruct (apply_op E fuel op am) as [am1|] eqn:Hap; [|done].
    intros Hrun. eapply emits_trans; [by eapply apply_op_emits|by apply IH].
Qed.

Hypothesis Hexec : ∀ e, is_db e = false → P e.

Lemma ExecuteCommand_emits agentID command am :
  emits P d am (ExecuteCommand E agentID command am).2.
Proof.
  intros Hd.
  destruct am as [ag hp q arrs mx rn [] dbf cl tr]; [by split; [|constructor]|];
    cbn [db] in Hd; subst d;
    unfold ExecuteCommand, validateCommand; cbn [agents terminated];
    destruct (ag !! agentID) as [p|]; destruct (HasPrefix command "RUN ");
    destruct dbf; run_io; (split; [done|]);
    repeat first
      [ apply extends_refl
      | apply extends_cons;
        [first [by apply Hexec | by apply Hdb]|] ].
Qed.

Lemma loop_body_emits agentID am : emits P d am (loop_body E agentID am).
Proof.
  unfold loop_body.
  pose proof (GetNextQueueItem_emits am) as Hnext.
  destruct (GetNextQueueItem am) as [[item|] am1]; cbn [snd] in Hnext.
  - set (am2 := store_item _ _ am1). set (am3 := updateQueueItemInDB _ am2).
    set (cmd := QueueItem.Command _).
    pose proof (ExecuteCommand_emits agentID cmd am3) as Hexec3.
    destruct (ExecuteCommand E agentID cmd am3) as [result am4]. cbn [snd] in Hexec3.
    eapply emits_trans; [exact Hnext|].
    eapply emits_trans; [apply (emits_same am1 am2); done|].
    eapply emits_trans; [apply updateQueueItemInDB_emits|].
    eapply emits_trans; [exact Hexec3|]. apply CompleteQueueItem_emits.
  - done.
Qed.

Lemma loop_turn_emits agentID am am' :
  loop_turn E agentID am = Some am' → emits P d am am'.
Proof.
  unfold loop_turn. destruct (loop_guard am); [|done].
  intros [= <-]. apply loop_body_emits.
Qed.

Lemma apply_op_emits_all fuel op am am' :
  apply_op E fuel op am = Done am' → emits P d am am'.
Proof.
  destruct (executes op) eqn:Hex; [|by apply apply_op_emits].
  destruct op; try done; simpl.
  - intros [= <-]. apply ExecuteCommand_emits.
  - intros [= <-]. destruct (loop_turn E agentID am) as [am1|] eqn:Hturn; simpl;
      [by eapply loop_turn_emits|apply emits_refl].
  - intros [= <-]. apply loop_body_emits.
Qed.

Lemma run_emits fuel ops : ∀ am am',
  run E fuel ops am = Done am' → emits P d am am'.
Proof.
  induction ops as [|op ops IH]; intros am am'; simpl.
  - intros [= <-]. apply emits_refl.
  - destruct (apply_op E fuel op am) as [am1|] eqn:Hop; [|done].
    intros Hrun. eapply emits_trans; [by eapply apply_op_emits_all|by apply IH].
Qed.

End Emits.

(** Only running a command starts a process: over every sequence of
    operations without [ExecuteCommand] and without a turn or a body of an
    agent loop (adding and removing agents, enqueueing, removing, claiming,
    completing, terminating, stopping) no subprocess is started. *)
Theorem only_execution_starts_processes (E : Env) fuel ops am :
  int_range (maxAgents am) →
  Z.of_nat (size (agents am)) ≤ maxAgents am →
  maxAgents am ≤ Z.of_nat fuel →
  Forall (λ op, executes op = false) ops →
  ∃ am', run E fuel ops am = Done am' ∧ spawned (trace am') = spawned (trace am).
Proof.
  intros Hrange Hsize Hfuel Hidle.
  destruct (run_bounded E fuel ops am Hrange Hsize Hfuel) as (am' & Hrun & _).
  exists am'. split; [done|].
  destruct (run_emits_idle E (λ e, ∀ a, e ≠ Spawn a) (db am)
              (λ m a, ltac:(discriminate))
              (λ _ e He a, ltac:(by intros ->))
              fuel ops am am' Hidle Hrun eq_refl) as [_ Hext].
  by apply extends_spawned.
Qed.

Lemma only_execution_starts_processes_witness :
  ∃ am',
    run env_ok 10
      [OpAddAgent "a1"; OpAddToQueue two_commands; OpGetNextQueueItem;
       OpCompleteQueueItem 1 "x" true; OpRemoveFromQueue 2; OpRemoveAgent 1;
       OpGracefulTerminate "<END!>"]
      (NewAgentManager true) = Done am' ∧
    spawned (trace am') = [].
Proof.
  destruct (only_execution_starts_processes env_ok 10
              [OpAddAgent "a1"; OpAddToQueue two_commands; OpGetNextQueueItem;
               OpCompleteQueueItem 1 "x" true; OpRemoveFromQueue 2; OpRemoveAgent 1;
               OpGracefulTerminate "<END!>"]
              (NewAgentManager true)) as (am' & Hrun & Hsp).
  - unfold int_range, int_min, int_max. simpl. lia.
  - simpl. rewrite map_size_empty. lia.
  - simpl. lia.
  - repeat constructor.
  - exists am'. split; [exact Hrun|exact Hsp].
Defined.

(** Without a database connection no operation issues a statement to the
    database: over every sequence of operations the [db] flag stays off and
    the trace gains no insert, update or delete. *)
Theorem no_database_no_statements (E : Env) fuel ops am :
  int_range (maxAgents am) →
  Z.of_nat (size (agents am)) ≤ maxAgents am →
  maxAgents am ≤ Z.of_nat fuel →
  db am = false →
  ∃ am', run E fuel ops am = Done am' ∧
    db am' = false ∧
    ∀ e, e ∈ trace am' → is_db e = true → e ∈ trace am.
Proof.
  intros Hrange Hsize Hfuel Hdb.
  destruct (run_bounded E fuel ops am Hrange Hsize Hfuel) as (am' & Hrun & _).
  exists am'. split; [done|].
  destruct (run_emits E (λ e, is_db e = false) false
              (λ m, eq_refl) (λ H, ltac:(discriminate)) (λ e He, He)
              fuel ops am am' Hrun Hdb) as [Hdb' Hext].
  split; [done|]. intros e Hin He.
  destruct (extends_elem_of _ _ _ e Hext Hin) as [Hno|?]; [congruence|done].
Qed.

Lemma no_database_no_statements_witness :
  ∃ am', run env_ok 10 busy_day (NewAgentManager false) = Done am' ∧
    ∀ e, e ∈ trace am' → is_db e = false.
Proof.
  destruct (no_database_no_statements env_ok 10 busy_day (NewAgentManager false))
    as (am' & Hrun & _ & Hno).
  - unfold int_range, int_min, int_max. simpl. lia.
  - simpl. rewrite map_size_empty. lia.
  - simpl. lia.
  - reflexivity.
  - exists am'. split; [exact Hrun|]. intros e Hin.
    destruct (is_db e) eqn:He; [|reflexivity].
    destruct (not_elem_of_nil e (Hno e Hin He)).
Defined.

(** ** The flags and the loop of an agent *)

Section Flags.
Context (E : Env).



(** A turn of the loop is taken exactly when the guard holds. *)
Lemma loop_turn_guard agentID am :
  is_Some (loop_turn E agentID am) ↔ running am = true ∧ terminated am = false.
Proof.
  unfold loop_turn, loop_guard. destruct (running am), (terminated am); simpl;
    (split; [by intros [? ?]|by intros [? ?]]).
Qed.

End Flags.



(** The loop of an agent never ends by itself: while the manager is running
    and not terminated it takes turn after turn, whether or not there is
    work and whether or not its agent is still registered; once the manager
    is stopped or terminated it ends at its next guard and changes nothing. *)
Theorem agent_loop_ends_only_when_stopped (E : Env) agentID am :
  (running am = true → terminated am = false →
   ∀ turns, StartAgentLoop E turns agentID am = OutOfFuel) ∧
  (running am = false ∨ terminated am = true →
   ∀ turns, StartAgentLoop E (S turns) agentID am = Done am).
Proof.
  split.
  - intros Hr Ht turns. revert am Hr Ht.
    induction turns as [|turns IH]; intros am Hr Ht; [done|]. simpl.
    destruct (proj2 (loop_turn_guard E agentID am) (conj Hr Ht)) as [am' Hturn].
    rewrite Hturn. destruct (loop_turn_frame E _ _ _ Hturn) as (_ & _ & Hr' & Ht' & _).
    apply IH; congruence.
  - intros Hstop turns. simpl.
    destruct (loop_turn E agentID am) as [am'|] eqn:Hturn; [|done].
    destruct (proj1 (loop_turn_guard E agentID am)) as [Hr Ht]; [by eexists|].
    destruct Hstop; congruence.
Qed.

Lemma agent_loop_ends_only_when_stopped_witness :
  StartAgentLoop env_ok 5 1 am_queued = OutOfFuel ∧
  StartAgentLoop env_ok 5 1 (set_running false am_queued)
  = Done (set_running false am_queued).
Proof.
  split.
  - destruct (agent_loop_ends_only_when_stopped env_ok 1 am_queued) as [Hgo _].
    apply Hgo; reflexivity.
  - destruct (agent_loop_ends_only_when_stopped env_ok 1 (set_running false am_queued))
      as [_ Hstop].
    apply Hstop. left. reflexivity.
Defined.

(** ** A turn of the loop, from claim to completion *)

Lemma list_insert_alter {A} (f : A → A) (l : list A) (i : nat) (x : A) :
  <[i := x]> (alter f i l) = <[i := x]> l.
Proof.
  revert i. induction l as [|y l IH]; intros [|i]; simpl; try done. by rewrite IH.
Qed.

(** The body of the loop on a queue with an item to serve: the item is
    claimed and given to the agent, [ExecuteCommand] is called on its command
    in the state [am3] reached by then, and what that call returns is written
    into the item.  Whether the command is run is up to [ExecuteCommand]. *)
Lemma loop_body_serves (E : Env) agentID am i q :
  (∀ j q', queue_items am !! j = Some q' → pending q' → 0 ≤ QueueItem.Priority q') →
  best_pending (queue_items am) i →
  queue_items am !! i = Some q →
  (∀ j q', (j < i)%nat → queue_items am !! j = Some q' →
     QueueItem.Index q' ≠ QueueItem.Index q) →
  ∃ am3,
    terminated am3 = terminated am ∧
    spawned (trace am3) = spawned (trace am) ∧
    let r := ExecuteCommand E agentID (QueueItem.Command q) am3 in
    queue_items (loop_body E agentID am)
    = <[i := QueueItem.mk (QueueItem.ID q) (QueueItem.Index q) (QueueItem.Command q)
              (if CommandResult.ExitCode r.1 =? 0 then "completed" else "failed")
              (CommandResult.Output r.1) agentID (QueueItem.Priority q)
              (QueueItem.BatchID q) (QueueItem.CreatedAt q)]> (queue_items am) ∧
    spawned (trace (loop_body E agentID am)) = spawned (trace r.2) ∧
    agents (loop_body E agentID am) = agents am.
Proof.
  intros Hnn Hbest Hq Hfirst.
  assert (i < s_len (queue am))%nat as Hlt.
  { apply lookup_lt_Some in Hq. pose proof (queue_items_length am). lia. }
  pose proof (GetNextQueueItem_spec am) as Hspec.
  pose proof (GetNextQueueItem_frame am) as Hframe1.
  pose proof (GetNextQueueItem_emits (λ e, ∀ a, e ≠ Spawn a) (db am)
                (λ _ e He a, ltac:(by intros ->)) am)
    as Hemit1.
  unfold loop_body.
  destruct (GetNextQueueItem am) as [[p|] am1]; cbn [snd] in Hframe1, Hemit1.
  2:{ destruct Hspec as [_ Hlow]. destruct Hbest as (q0 & Hq0 & Hp0 & _).
      specialize (Hlow _ _ Hq0 Hp0). specialize (Hnn _ _ Hq0 Hp0). lia. }
  destruct Hspec as (Harr & Hbest' & _ & Hqueue & Hitems1).
  destruct p as [arr i']. cbn [p_arr p_idx] in *. subst arr.
  assert (i' = i) as -> by by eapply best_pending_unique.
  destruct (Hemit1 eq_refl) as [Hdb1 Hext1]. apply extends_spawned in Hext1.
  set (p := {| p_arr := s_ptr (queue am); p_idx := i |}).
  set (q2 := QueueItem.set_AgentID agentID (QueueItem.set_Status "running" q)).
  set (am2 := store_item p (QueueItem.set_AgentID agentID) am1).
  assert (queue_items am2 = <[i := q2]> (queue_items am)) as Hitems2.
  { unfold am2, p. rewrite <- Hqueue, store_item_items, Hitems1.
    rewrite (list_alter_insert _ _ i (QueueItem.set_Status "running" q)).
    - rewrite list_insert_alter. done.
    - rewrite list_lookup_alter_eq, Hq. done. }
  assert (queue am2 = queue am) as Hqueue2 by (unfold am2; simpl; done).
  assert (load_item (arrays am2) p = Some q2) as Hload2.
  { unfold p. rewrite <- Hqueue2, load_item_queue by (rewrite Hqueue2; done).
    rewrite Hitems2. apply list_lookup_insert_eq. by eapply lookup_lt_Some. }
  rewrite Hload2. cbn [default from_option id].
  pose proof (updateQueueItemInDB_quiet q2 am2) as Hquiet3.
  set (am3 := updateQueueItemInDB q2 am2) in *.
  assert (load_item (arrays am3) p = Some q2) as Hload3.
  { destruct Hquiet3 as (_ & _ & _ & -> & _). done. }
  rewrite Hload3. cbn [default from_option id].
  change (QueueItem.Command q2) with (QueueItem.Command q).
  exists am3. split; [|split].
  { destruct Hquiet3 as (_ & _ & _ & _ & _ & _ & -> & _).
    destruct Hframe1 as (_ & _ & _ & _ & Ht & _). unfold am2. simpl. congruence. }
  { destruct Hquiet3 as (_ & _ & _ & _ & _ & _ & _ & _ & ->).
    unfold am2. simpl. exact Hext1. }
  cbv zeta.
  pose proof (ExecuteCommand_frame E agentID (QueueItem.Command q) am3) as Hframe4.
  destruct (ExecuteCommand E agentID (QueueItem.Command q) am3) as [result am4].
  cbn [fst snd] in *.
  destruct Hframe4 as (Hag4 & Hq4 & Harr4 & _).
  assert (load_item (arrays am4) p = Some q2) as Hload4 by by rewrite Harr4.
  rewrite Hload4. cbn [default from_option id].
  change (QueueItem.Index q2) with (QueueItem.Index q).
  assert (queue_items am4 = <[i := q2]> (queue_items am)) as Hitems4.
  { unfold queue_items. rewrite Hq4, Harr4.
    rewrite <- (quiet_queue_items _ _ Hquiet3) in Hitems2. exact Hitems2. }
  set (am5 := CompleteQueueItem _ _ _ am4).
  split_and!.
  - unfold am5. rewrite (CompleteQueueItem_found _ _ _ am4 i q2).
    + rewrite Hitems4, list_insert_insert_eq. by destruct (_ =? 0).
    + rewrite Hitems4. apply list_lookup_insert_eq. by eapply lookup_lt_Some.
    + done.
    + intros j q' Hj Hq'. rewrite Hitems4, list_lookup_insert_ne in Hq' by lia.
      by apply (Hfirst j q').
  - pose proof (CompleteQueueItem_emits (λ e, ∀ a, e ≠ Spawn a) (db am4)
                  (λ _ e He a, ltac:(by intros ->))
                  (QueueItem.Index q) (CommandResult.Output result)
                  (CommandResult.ExitCode result =? 0) am4 eq_refl) as [_ Hext5].
    apply extends_spawned in Hext5. exact Hext5.
  - destruct (CompleteQueueItem_frame (QueueItem.Index q) (CommandResult.Output result)
                (CommandResult.ExitCode result =? 0) am4) as (Hag5 & _).
    fold am5 in Hag5. rewrite Hag5, Hag4.
    destruct Hquiet3 as (-> & _). unfold am2. simpl. by destruct Hframe1 as (-> & _).
Qed.



(** ** Which maps [AddToQueue] takes whole *)

Lemma omap_length_le {A B} (f : A → option B) (l : list A) :
  (length (omap f l) ≤ length l)%nat.
Proof. induction l as [|x l IH]; csimpl; [lia|]. destruct (f x); simpl; lia. Qed.

Lemma omap_length_eq {A B} (f : A → option B) (l : list A) :
  length (omap f l) = length l ↔ ∀ x, x ∈ l → is_Some (f x).
Proof.
  induction l as [|x l IH]; csimpl.
  - split; [|done]. by intros _ x ?%not_elem_of_nil.
  - pose proof (omap_length_le f l). destruct (f x) as [y|] eqn:Hfx; simpl.
    + split.
      * intros Hlen y' [->|Hin]%elem_of_cons; [by rewrite Hfx|].
        apply IH; [lia|done].
      * intros Hall. f_equal. apply IH. intros y' Hin. apply Hall. by right.
    + split; [lia|]. intros Hall. destruct (Hall x) as [? Hs]; [by left|].
      by rewrite Hfx in Hs.
Qed.

(** The keys ["1"] to [n] are [n] different strings. *)
Lemma numbered_keys_size (n : nat) :
  size (list_to_set ((λ i, Sprintf_d (Z.of_nat i)) <$> seq 1 n) : gset string) = n.
Proof.
  rewrite size_list_to_set.
  - by rewrite length_fmap, length_seq.
  - apply NoDup_fmap_2; [|apply NoDup_seq].
    intros i j Hij. unfold Sprintf_d in Hij. apply pretty_Z_inj in Hij. lia.
Qed.

(** A map all of whose slots from 1 to its size are filled has no other key. *)
Lemma numbered_keys_only (commands : gmap string string) :
  (∀ i, (1 ≤ i ≤ size commands)%nat → is_Some (commands !! Sprintf_d (Z.of_nat i))) →
  ∀ key, is_Some (commands !! key) →
    ∃ i, (1 ≤ i ≤ size commands)%nat ∧ key = Sprintf_d (Z.of_nat i).
Proof.
  intros Hall key Hkey.
  set (S := list_to_set ((λ i, Sprintf_d (Z.of_nat i)) <$> seq 1 (size commands))
            : gset string).
  assert (S ⊆ dom commands) as Hsub.
  { intros k Hk. apply elem_of_list_to_set, list_elem_of_fmap in Hk as (i & -> & Hi).
    apply elem_of_seq in Hi. apply elem_of_dom, Hall. lia. }
  assert (S = dom commands) as Heq.
  { apply set_subseteq_size_eq; [done|].
    unfold S. rewrite numbered_keys_size, size_dom. done. }
  apply elem_of_dom in Hkey. rewrite <- Heq in Hkey.
  apply elem_of_list_to_set, list_elem_of_fmap in Hkey as (i & -> & Hi).
  apply elem_of_seq in Hi. exists i. split; [lia|done].
Qed.

(** [AddToQueue] never enqueues more items than the map has entries, and
    it enqueues every entry exactly when the keys of the map are the numbers
    from 1 to its size in decimal; with any other key in the map at least
    one command is lost. *)
Theorem AddToQueue_whole_map_iff_numbered (E : Env) commands am :
  wf_queue am →
  ∃ news,
    queue_items (AddToQueue E commands am) = queue_items am ++ news ∧
    (length news ≤ size commands)%nat ∧
    (length news = size commands ↔
     ∀ key, is_Some (commands !! key) ↔
            ∃ i, (1 ≤ i ≤ size commands)%nat ∧ key = Sprintf_d (Z.of_nat i)).
Proof.
  intros Hwf.
  destruct (AddToQueue_items E commands am Hwf) as (_ & news & Hitems & Hnews).
  exists news. split; [done|].
  apply Forall2_length in Hnews. rewrite Hnews. unfold slots.
  set (f := λ i : nat, (λ cmd, (i, cmd)) <$> commands !! Sprintf_d (Z.of_nat i)).
  pose proof (omap_length_le f (seq 1 (size commands))) as Hle.
  pose proof (omap_length_eq f (seq 1 (size commands))) as Heq.
  rewrite length_seq in Hle, Heq. split; [done|].
  assert ((∀ x, x ∈ seq 1 (size commands) → is_Some (f x)) ↔
          (∀ i, (1 ≤ i ≤ size commands)%nat →
                is_Some (commands !! Sprintf_d (Z.of_nat i)))) as Hslots.
  { unfold f. split.
    - intros H i Hi. destruct (H i) as [x Hx]; [apply elem_of_seq; lia|].
      by destruct (commands !! Sprintf_d (Z.of_nat i)).
    - intros H x Hx%elem_of_seq. destruct (H x) as [c ->]; [lia|]. by eexists. }
  rewrite Heq, Hslots. split.
  - intros Hall key. split; [by apply numbered_keys_only|].
    intros (i & Hi & ->). by apply Hall.
  - intros Hkeys i Hi. apply Hkeys. by exists i.
Qed.

Lemma AddToQueue_whole_map_iff_numbered_witness :
  length (queue_items (AddToQueue env_ok two_commands am_queued)) = 4%nat.
Proof.
  destruct (AddToQueue_whole_map_iff_numbered env_ok two_commands am_queued)
    as (news & -> & _ & Hiff).
  - unfold wf_queue. vm_compute. lia.
  - rewrite length_app. rewrite (proj2 Hiff); [reflexivity|].
    intros key. split.
    + intros Hkey. change (size two_commands) with 2%nat.
      destruct (decide (key = "1")) as [->|H1]; [exists 1%nat; split; [lia|reflexivity]|].
      destruct (decide (key = "2")) as [->|H2]; [exists 2%nat; split; [lia|reflexivity]|].
      unfold two_commands in Hkey.
      rewrite lookup_insert_ne, lookup_singleton_ne in Hkey by done.
      by destruct Hkey.
    + intros (i & Hi & ->). change (size two_commands) with 2%nat in Hi.
      assert (i = 1 ∨ i = 2)%nat as [-> | ->] by lia; by eexists.
Defined.

(** ** The list queries and what they share with the manager *)









(** ** A loop between its guard and its body

    What the termination does to the flags, and what it leaves alone. *)
Lemma GracefulTerminate_END am :
  terminated (GracefulTerminate "<END!>" am) = true ∧
  running (GracefulTerminate "<END!>" am) = false ∧
  queue_items (GracefulTerminate "<END!>" am) = queue_items am ∧
  spawned (trace (GracefulTerminate "<END!>" am)) = spawned (trace am).
Proof.
  destruct (GracefulTerminate_frame "<END!>" am) as (_ & _ & _ & Hq & Ha & _).
  split_and!.
  - unfold GracefulTerminate. simpl. unfold_io. by destruct_am am.
  - unfold GracefulTerminate. simpl. unfold_io. by destruct_am am.
  - unfold queue_items. by rewrite Hq, Ha.
  - apply extends_spawned.
    by destruct (GracefulTerminate_emits (λ e, ∀ a, e ≠ Spawn a) (db am)
                   (λ _ _, ltac:(discriminate))
                   (λ _ e He a, ltac:(by intros ->)) "<END!>" am eq_refl).
Qed.

(** C4 fails on the code, in its last clause.  A loop that has read its
    guard, and found it true, goes on to its body whatever happens next: the
    guard is read under no lock, and neither the body nor [GetNextQueueItem]
    reads the flags again.  When the termination signal is processed between
    the guard and the body, the body still claims the item that the queue
    serves.  [ExecuteCommand] refuses it and starts nothing, but the refusal
    carries the exit code 0, so the item that was never run is written down
    as completed, with an empty output and the id of the agent. *)
Theorem loop_claims_after_terminate (E : Env) agentID am i q :
  loop_guard am = true →
  (∀ j q', queue_items am !! j = Some q' → pending q' → 0 ≤ QueueItem.Priority q') →
  best_pending (queue_items am) i →
  queue_items am !! i = Some q →
  (∀ j q', (j < i)%nat → queue_items am !! j = Some q' →
     QueueItem.Index q' ≠ QueueItem.Index q) →
  let am1 := GracefulTerminate "<END!>" am in
  let am2 := loop_body E agentID am1 in
  loop_step E agentID (AtGuard, am) = (AtBody, am) ∧
  terminated am1 = true ∧
  loop_step E agentID (AtBody, am1) = (AtGuard, am2) ∧
  loop_step E agentID (AtGuard, am2) = (Ended, am2) ∧
  queue_items am1 = queue_items am ∧
  pending q ∧
  queue_items am2
  = <[i := QueueItem.mk (QueueItem.ID q) (QueueItem.Index q) (QueueItem.Command q)
            "completed" "" agentID (QueueItem.Priority q) (QueueItem.BatchID q)
            (QueueItem.CreatedAt q)]> (queue_items am) ∧
  spawned (trace am2) = spawned (trace am).
Proof.
  intros Hguard Hnn Hbest Hq Hfirst. cbv zeta.
  destruct (GracefulTerminate_END am) as (Hterm & Hrun & Hitems & Hsp).
  set (am1 := GracefulTerminate "<END!>" am) in *.
  assert (pending q) as Hpending.
  { destruct Hbest as (q0 & Hq0 & Hp0 & _). congruence. }
  assert (loop_guard (loop_body E agentID am1) = false) as Hguard2.
  { destruct (loop_body_frame E agentID am1) as (_ & _ & _ & Ht & _).
    unfold loop_guard. rewrite Ht, Hterm. apply andb_false_r. }
  split_and!;
    [by cbn [loop_step]; rewrite Hguard|done|done
    |by cbn [loop_step]; rewrite Hguard2|done|done|..];
    rewrite <- Hitems in Hnn, Hbest, Hq, Hfirst;
    destruct (loop_body_serves E agentID am1 i q Hnn Hbest Hq Hfirst)
      as (am3 & Hterm3 & Hsp3 & Hbody);
    rewrite Hterm in Hterm3; cbv zeta in Hbody;
    rewrite (ExecuteCommand_terminated E agentID (QueueItem.Command q) am3 Hterm3)
      in Hbody;
    cbn [fst snd CommandResult.ExitCode CommandResult.Output] in Hbody;
    destruct Hbody as (Hitems2 & Hsp2 & _).
  - rewrite Hitems2, Hitems. done.
  - by rewrite Hsp2, Hsp3.
Qed.

(** The second item of the queue waits; the first is claimed by the loop of
    agent 1 after the termination, and ends completed though nothing ran. *)
Lemma loop_claims_after_terminate_witness :
  let am1 := GracefulTerminate "<END!>" am_queued in
  let am2 := loop_body env_ok 1 am1 in
  loop_step env_ok 1 (AtGuard, am_queued) = (AtBody, am_queued) ∧
  terminated am1 = true ∧
  QueueItem.Status <$> queue_items am1 = ["pending"; "pending"] ∧
  QueueItem.Status <$> queue_items am2 = ["completed"; "pending"] ∧
  QueueItem.AgentID <$> queue_items am2 = [1; 0] ∧
  QueueItem.Output <$> queue_items am2 = [""; ""] ∧
  spawned (trace am2) = [].
Proof.
  cbv zeta.
  destruct (loop_claims_after_terminate env_ok 1 am_queued 0%nat
              (QueueItem.mk 0 1 "RUN echo a" "pending" "" 0 3 "" ""))
    as (Hstep & Hterm & _ & _ & Hitems1 & _ & Hitems2 & Hsp).
  - reflexivity.
  - intros [|[|j]] q' Hq' _; vm_compute in Hq'; simplify_eq; done.
  - eexists. split_and!; [reflexivity|reflexivity| |].
    + intros [|[|j]] q' Hq' _; vm_compute in Hq'; simplify_eq; done.
    + intros j q' Hj. lia.
  - reflexivity.
  - intros j q' Hj. lia.
  - split_and!; [exact Hstep|exact Hterm|..].
    + rewrite Hitems1. reflexivity.
    + rewrite Hitems2. reflexivity.
    + rewrite Hitems2. reflexivity.
    + rewrite Hitems2. reflexivity.
    + rewrite Hsp. reflexivity.
Defined.

(** The stop message ends the loops and nothing else: a loop that reaches
    its guard after it ends there, while [ExecuteCommand] goes on running
    commands, since it tests [terminated] only.  The queue and the registry
    are as they were. *)
Theorem stop_ends_loops_not_execution (E : Env) agentID command turns am :
  terminated am = false →
  let am1 := handleMessage_stop am in
  StartAgentLoop E (S turns) agentID am1 = Done am1 ∧
  queue_items am1 = queue_items am ∧
  agents am1 = agents am ∧
  ∃ tr,
    let out := CombinedOutput E tr (shell_argv E command) in
    let '(result, am2) := ExecuteCommand E agentID command am1 in
    spawned (trace am2) = shell_argv E command :: spawned (trace am) ∧
    CommandResult.Output result = p_output out ∧
    CommandResult.ExitCode result = exit_code (p_err out).
Proof.
  intros Hterm. cbv zeta.
  destruct (handleMessage_stop_frame am)
    as (Hag & _ & _ & Hq & Ha & Ht & _ & Hr & Htr).
  set (am1 := handleMessage_stop am) in *.
  split_and!.
  - cbn [StartAgentLoop]. unfold loop_turn, loop_guard. by rewrite Hr.
  - unfold queue_items. by rewrite Hq, Ha.
  - done.
  - assert (terminated am1 = false) as Hterm1 by congruence.
    destruct (ExecuteCommand_spawns E agentID command am1 Hterm1) as [tr Hexec].
    exists tr. cbv zeta in Hexec |- *.
    destruct (ExecuteCommand E agentID command am1) as [result am2].
    destruct Hexec as (Hon & Hsp & Hout & _ & Hcode). split_and!; [|done..].
    rewrite (spawn_on_spawned _ _ _ Hon), Hsp, Htr. done.
Qed.

Lemma stop_ends_loops_not_execution_witness :
  let am1 := handleMessage_stop am_queued in
  StartAgentLoop env_ok 4 1 am1 = Done am1 ∧
  spawned (trace (ExecuteCommand env_ok 1 "RUN echo hi" am1).2) = [["sh"; "-c"; "echo hi"]].
Proof.
  cbv zeta.
  destruct (stop_ends_loops_not_execution env_ok 1 "RUN echo hi" 3 am_queued eq_refl)
    as (Hloop & _ & _ & tr & Hexec).
  split; [exact Hloop|].
  destruct (ExecuteCommand env_ok 1 "RUN echo hi" (handleMessage_stop am_queued))
    as [result am2].
  destruct Hexec as (Hsp & _). exact Hsp.
Defined.
